(** * stacks-blockchain-api: helpers and the block list reader

    A shallow embedding of the helpers module (hex codecs, hash
    normalisation, the memoised enum checkers) and of [readBlocks],
    the block list reader of the p2p decoder, with the properties the
    specification states about them.

    Conventions.
    - A [Buffer] is a [list byte].
    - A JavaScript string handed to the hex helpers or to [cssEscape]
      is the list of its UTF-16 code units; the strings of the other
      helpers, which accept Basic Latin only, are [string]s.
    - A function that throws returns a [result]; a function returning
      [string | false] returns an [option string] ([None] is [false]). *)

From Stdlib Require Import Strings.Byte Ascii String ZArith NArith Lia.
From stdpp Require Import gmap strings list fin_maps pretty.
From Equations.Prop Require Import Equations Logic.

Local Open Scope string_scope.

(** ** Results of fallible code *)

Inductive result (E A : Type) : Type :=
| Ok (a : A)
| Err (e : E).
Arguments Ok {E A} a.
Arguments Err {E A} e.

(** ** Node primitives on strings and buffers *)

Module Node.

Local Close Scope string_scope.

Definition Buffer := list byte.

(** A JavaScript string is the sequence of its UTF-16 code units. *)
Abbreviation JsString := (list N).

(** The string that a literal of 8-bit characters denotes. *)
Definition code_units (s : string) : JsString := N_of_ascii <$> list_ascii_of_string s.
Arguments code_units s%_string.

(** [str.substring(n)] and [str.slice(n)] for [0 <= n]. *)
Definition substring_from (n : nat) (s : JsString) : JsString := drop n s.

(** [str.substr(0, n)]. *)
Definition substr0 (n : nat) (s : JsString) : JsString := take n s.

(** [str.startsWith(p)]. *)
Definition startsWith (p s : JsString) : bool :=
  bool_decide (take (length p) s = p).

(** [String.prototype.toLowerCase] on one code unit: the ASCII
    capitals, and the Latin-1 capitals other than the multiplication
    sign, move up by 32. The case tables of Unicode beyond Latin-1 are
    not part of this development: a code unit from U+0100 on is
    returned as it is. JavaScript lowers none of them to [0] or to
    [x], so [has0xPrefix] decides as it does in JavaScript. *)
Definition lower_char (c : N) : N :=
  if ((65 <=? c) && (c <=? 90))%N then (c + 32)%N
  else if ((192 <=? c) && (c <=? 222) && negb (c =? 215))%N then (c + 32)%N
  else c.

Definition toLowerCase (s : JsString) : JsString := lower_char <$> s.

(** One lower-case hexadecimal digit for a nibble. *)
Definition hex_digit (n : N) : N :=
  if (n <? 10)%N then (48 + n)%N else (87 + n)%N.

(** [buff.toString('hex')]: two lower-case digits per byte. *)
Fixpoint toString_hex (buff : Buffer) : JsString :=
  match buff with
  | [] => []
  | b :: rest =>
      hex_digit (Byte.to_N b / 16) :: hex_digit (Byte.to_N b mod 16) :: toString_hex rest
  end.

(** The value of a hexadecimal digit, in either case. Node's hex
    decoder reads every code unit of the string as one byte: it looks
    at the low eight bits of the code unit and at nothing else, so that
    U+0130, whose low byte is the code of [0], counts as the digit
    [0]. *)
Definition unhex (c : N) : option N :=
  let n := (c mod 256)%N in
  if ((48 <=? n) && (n <=? 57))%N then Some (n - 48)%N
  else if ((97 <=? n) && (n <=? 102))%N then Some (n - 87)%N
  else if ((65 <=? n) && (n <=? 70))%N then Some (n - 55)%N
  else None.

(** [Buffer.from(str, 'hex')]: decodes pairs of digits and stops at the
    first pair that is not hexadecimal; an unpaired last character
    is dropped. *)
Fixpoint from_hex (s : JsString) : Buffer :=
  match s with
  | a :: b :: rest =>
      match unhex a, unhex b with
      | Some h, Some l =>
          match Byte.of_N (16 * h + l) with
          | Some x => x :: from_hex rest
          | None => []
          end
      | _, _ => []
      end
  | _ => []
  end.

End Node.

(** ** Helpers: hex strings *)

Section HexHelpers.
Import Node.

Local Close Scope string_scope.

(** The two [Error]s thrown by [hexToBuffer]. *)
Inductive HexError : Type :=
| MissingPrefix (hex : JsString)
| OddDigits (hex : JsString).

Definition bufferToHexPrefixString (buff : Buffer) : JsString :=
  code_units "0x" ++ toString_hex buff.

Definition hexToBuffer (hex : JsString) : result HexError Buffer :=
  if negb (startsWith (code_units "0x") hex) then Err (MissingPrefix hex)
  else if negb (Nat.eqb (length hex mod 2) 0) then Err (OddDigits hex)
  else Ok (from_hex (substring_from 2 hex)).

Definition has0xPrefix (id : JsString) : bool :=
  bool_decide (toLowerCase (substr0 2 id) = code_units "0x").

(** The argument of [normalizeHashString] at run time: a string, or
    any other value (rejected by the [typeof] guard). *)
Inductive HashInput : Type :=
| InString (s : JsString)
| InOther.

Definition normalizeHashString (input : HashInput) : option JsString :=
  match input with
  | InOther => None
  | InString input =>
      let hashBuffer : option Buffer :=
        if Nat.eqb (length input) 66 && has0xPrefix input
        then Some (from_hex (substring_from 2 input))
        else if Nat.eqb (length input) 64
        then Some (from_hex input)
        else None in
      match hashBuffer with
      | None => None
      | Some hashBuffer =>
          if negb (Nat.eqb (length hashBuffer) 32) then None
          else Some (code_units "0x" ++ toString_hex hashBuffer)
      end
  end.

(** The shape of a hash string, as the documentation words it: a
    hexadecimal character is a decimal digit or one of the letters a to
    f in either case. *)
Definition hex_char (c : N) : bool :=
  bool_decide (c ∈ code_units "0123456789abcdefABCDEF").

Definition hex_digits (n : nat) (s : JsString) : Prop :=
  length s = n ∧ Forall (λ c, hex_char c = true) s.

Definition hash_shaped (input digits : JsString) : Prop :=
  (input = digits ∨ input = code_units "0x" ++ digits ∨ input = code_units "0X" ++ digits)
  ∧ hex_digits 64 digits.

(** What the hex decoder sees of a string: the low byte of every code
    unit. *)
Definition low_bytes (s : JsString) : JsString := (λ c, (c mod 256)%N) <$> s.

(** A string of 64 characters that is no hexadecimal string: a capital
    I with a dot above (U+0130), then 63 zeros. *)
Definition dotted_hash : JsString := 0x130%N :: replicate 63 0x30%N.

End HexHelpers.

(** ** Numbers as strings *)

Module Js.

(** The numbers of this development are the integers that a double
    holds, written as a [Z]. [to_double x] is the double nearest to
    the positive integer [x], ties going to the even mantissa: an
    integer of at most 53 bits is a double, and of a longer one the 53
    leading bits are kept and rounded on the bits that follow.
    (Rounding overflows from 2^1024 on; no double is that large.) *)
Definition to_double (x : N) : N :=
  let bits := N.size x in
  if (bits <=? 53)%N then x
  else
    let shift := (bits - 53)%N in
    let q := N.shiftr x shift in
    let r := (x - N.shiftl q shift)%N in
    let half := N.shiftl 1 (shift - 1) in
    N.shiftl (if (half <? r)%N || ((r =? half)%N && N.odd q) then (q + 1)%N else q) shift.

(** The multiples of [scale] just below and just above [x] that
    [to_double] rounds to [x], if any: the nearer of the two when both
    do, and the one with the even digit when they are as near. *)
Definition shortest_at (scale x : N) : option N :=
  let lo := (x / scale * scale)%N in
  let hi := (lo + scale)%N in
  let lo_ok := (to_double lo =? x)%N in
  let hi_ok := (to_double hi =? x)%N in
  if lo_ok && hi_ok then
    if (x - lo <? hi - x)%N then Some lo
    else if (hi - x <? x - lo)%N then Some hi
    else if N.even (x / scale) then Some lo else Some hi
  else if lo_ok then Some lo
  else if hi_ok then Some hi
  else None.

(** The integer with the fewest significant digits that rounds to [x]:
    the scales are tried from [10 ^ j] down. *)
Fixpoint shortest_from (j : nat) (x : N) : N :=
  match j with
  | O => x
  | S j' =>
      match shortest_at (10 ^ N.of_nat j) x with
      | Some c => c
      | None => shortest_from j' x
      end
  end.

Definition shortest (x : N) : N := shortest_from (String.length (pretty x)) x.

Fixpoint drop_trailing_zeros (s : string) : string :=
  match s with
  | EmptyString => EmptyString
  | String c rest =>
      match drop_trailing_zeros rest with
      | EmptyString => if Ascii.eqb c "0" then EmptyString else String c EmptyString
      | rest' => String c rest'
      end
  end.

(** [Number.prototype.toString] on a positive integer: the digits of
    the shortest integer that rounds to it when these are 21 or fewer,
    and the exponent form [d.ddde+n] when they are more. *)
Definition Number_toString_pos (x : N) : string :=
  let c := shortest x in
  let ds := pretty c in
  if (c <? 10 ^ 21)%N then ds
  else
    let e := "e+" +:+ pretty (String.length ds - 1)%nat in
    match drop_trailing_zeros ds with
    | String d EmptyString => String d e
    | String d rest => String d ("." +:+ rest +:+ e)
    | EmptyString => ds
    end.

(** [n.toString()], [String(n)] and [`${n}`] for an integer [n]. *)
Definition Number_toString (z : Z) : string :=
  match z with
  | Z0 => "0"
  | Zpos p => Number_toString_pos (Npos p)
  | Zneg p => "-" +:+ Number_toString_pos (Npos p)
  end.

End Js.

(** ** Helpers: memoised enum checks *)

Module Enum.

(** The value of one property of a compiled TypeScript [enum] object.
    A numeric member [Purple = 3] yields the property [Purple -> 3] and
    the reverse property [3 -> 'Purple']; a string member has no reverse
    property. Numbers are integers here (protocol tags). *)
Inductive PropValue : Type :=
| PNum (n : Z)
| PStr (s : string).

#[global] Instance PropValue_eq_dec : EqDecision PropValue.
Proof. solve_decision. Defined.

#[global] Instance PropValue_countable : Countable PropValue.
Proof.
  refine (inj_countable'
    (λ v, match v with PNum n => inl n | PStr s => inr s end)
    (λ x, match x with inl n => PNum n | inr s => PStr s end) _).
  intros []; reflexivity.
Defined.

(** An enum object: its own enumerable properties, in the order
    [Object.entries] lists them. *)
Definition EnumObject : Type := list (string * PropValue).

(** The identity of an object: the key of a [Map<object, _>]. *)
Definition ObjRef : Type := positive.

(** [typeof v === 'number'] *)
Definition typeof_number (v : PropValue) : bool :=
  match v with PNum _ => true | PStr _ => false end.

Definition Object_values (o : EnumObject) : list PropValue := o.*2.
Definition Object_entries (o : EnumObject) : list (string * PropValue) := o.

(** [new Map(pairs)]: a later pair overwrites an earlier one with the
    same key. *)
Definition Map_from (pairs : list (PropValue * string)) : gmap PropValue string :=
  foldl (λ m kv, <[kv.1 := kv.2]> m) ∅ pairs.

(** The closure returned by [createEnumChecker], represented by the
    [Set] it captures. *)
Record EnumChecker : Type := { enumValueSet : gset PropValue }.

Definition call (checker : EnumChecker) (value : Z) : bool :=
  bool_decide (PNum value ∈ enumValueSet checker).

Definition createEnumChecker (enumVariable : EnumObject) : EnumChecker :=
  let enumValues := filter (λ v, typeof_number v = true) (Object_values enumVariable) in
  {| enumValueSet := list_to_set enumValues |}.

(** The two module-level caches. *)
Record Caches : Type := {
  enumCheckFunctions : gmap ObjRef EnumChecker;
  enumMaps : gmap ObjRef (gmap PropValue string)
}.

Definition no_caches : Caches :=
  {| enumCheckFunctions := ∅; enumMaps := ∅ |}.

Definition set_checker (r : ObjRef) (c : EnumChecker) (st : Caches) : Caches :=
  {| enumCheckFunctions := <[r := c]> (enumCheckFunctions st);
     enumMaps := enumMaps st |}.

Definition set_enumMap (r : ObjRef) (m : gmap PropValue string) (st : Caches) : Caches :=
  {| enumCheckFunctions := enumCheckFunctions st;
     enumMaps := <[r := m]> (enumMaps st) |}.

Definition unchecked (r : ObjRef) (st : Caches) : nat :=
  match enumCheckFunctions st !! r with Some _ => 0 | None => 1 end.

Definition unmapped (r : ObjRef) (st : Caches) : nat :=
  match enumMaps st !! r with Some _ => 0 | None => 1 end.

Section WithObjects.

(** The enum objects of the program, by identity. Enum objects are
    never written to after the module that declares them is loaded. *)
Variable objects : ObjRef → EnumObject.

(** [isEnum(enumVariable, value)], threading the caches. The
    call on a miss recurses once, after the checker is stored. *)
Equations? isEnum (enumVariable : ObjRef) (value : Z) (st : Caches) : bool * Caches
  by wf (unchecked enumVariable st) lt :=
isEnum enumVariable value st with inspect (enumCheckFunctions st !! enumVariable) := {
  | exist _ (Some checker) _ => (call checker value, st)
  | exist _ None Hmiss =>
      let newChecker := createEnumChecker (objects enumVariable) in
      isEnum enumVariable value (set_checker enumVariable newChecker st) }.
Proof.
  unfold unchecked, set_checker; simpl.
  rewrite lookup_insert_eq, Hmiss. lia.
Qed.

Equations? getEnumDescription (enumVariable : ObjRef) (value : Z) (st : Caches) : string * Caches
  by wf (unmapped enumVariable st) lt :=
getEnumDescription enumVariable value st with inspect (enumMaps st !! enumVariable) := {
  | exist _ (Some enumMap) _ =>
      match enumMap !! PNum value with
      | Some enumKey => (Js.Number_toString value +:+ " '" +:+ enumKey +:+ "'", st)
      | None => (Js.Number_toString value, st)
      end
  | exist _ None Hmiss =>
      let enumValues :=
        (λ kv : string * PropValue, (kv.2, kv.1)) <$>
          filter (λ kv, typeof_number kv.2 = true) (Object_entries (objects enumVariable)) in
      let newEnumMap := Map_from enumValues in
      getEnumDescription enumVariable value (set_enumMap enumVariable newEnumMap st) }.
Proof.
  unfold unmapped, set_enumMap; simpl.
  rewrite lookup_insert_eq, Hmiss. lia.
Qed.

End WithObjects.

(** The caches a program can be in: [enumCheckFunctions] is private
    to the module and written by [isEnum] only, so the checker stored
    for an object is the one [createEnumChecker] builds from it. *)
Definition checkers_coherent (objects : ObjRef → EnumObject) (st : Caches) : Prop :=
  ∀ r c, enumCheckFunctions st !! r = Some c → c = createEnumChecker (objects r).

(** The [Color] enum of the doc comment of [isEnum], as compiled. *)
Definition Color : EnumObject :=
  [("3", PStr "Purple"); ("5", PStr "Orange"); ("Purple", PNum 3); ("Orange", PNum 5)].

Definition Color_ref : ObjRef := 1%positive.

Definition Color_only : ObjRef → EnumObject := λ _, Color.

End Enum.

(** ** Stream computations

    An [async] function over a stream object: it runs on the state of
    the stream, leaves the stream in a new state, and either resolves
    with a value or rejects with the value thrown. [await] is [bind]:
    a rejection of the awaited promise rejects the caller. *)

Definition Reader (S E A : Type) : Type := S → result E A * S.

Definition ret {S E A} (a : A) : Reader S E A := λ s, (Ok a, s).

Definition throw {S E A} (e : E) : Reader S E A := λ s, (Err e, s).

Definition bind {S E A B} (m : Reader S E A) (k : A → Reader S E B) : Reader S E B :=
  λ s, match m s with
       | (Ok a, s') => k a s'
       | (Err e, s') => (Err e, s')
       end.

Notation "x <- m ;; k" := (bind m (λ x, k))
  (at level 100, m at next level, right associativity).

(** [n] records read one after the other, listed in input order: the
    "count, then that many records" of the wire format (§4.3, §4.6). *)
Fixpoint read_many {S E A} (n : nat) (read_one : Reader S E A) : Reader S E (list A) :=
  match n with
  | O => ret []
  | Datatypes.S n' =>
      x <- read_one ;;
      xs <- read_many n' read_one ;;
      ret (x :: xs)
  end.

(** The record at index [i]: the one read after [i] records were read. *)
Definition read_nth {S E A} (i : nat) (read_one : Reader S E A) : Reader S E A :=
  _ <- read_many i read_one ;;
  read_one.

(** ** The block list reader *)

Module Blocks.

(** A JavaScript array: a slot is [None] while it is a hole, as the
    slots of [new Array(n)] are. *)
Abbreviation JsArray A := (list (option A)).

Record Block (BlockHeader Transaction : Type) : Type := {
  header : BlockHeader;
  transactions : list Transaction
}.
Arguments Build_Block {BlockHeader Transaction} _ _.
Arguments header {BlockHeader Transaction} _.
Arguments transactions {BlockHeader Transaction} _.

(** What [readBlocks] imports: the [readUInt32BE] method of
    [BinaryReader], [readBlockHeader] and [readTransactions]. None of
    the three is defined in the sources, so they are the operations of
    an interface; [S] is the state of the stream, [E] the
    type of thrown values. [RangeError n] is what [new Array(n)] throws
    when [n] is not an array length. *)
Class Decoders (S E BlockHeader Transaction : Type) : Type := {
  readUInt32BE : Reader S E Z;
  readBlockHeader : Reader S E BlockHeader;
  readTransactions : Reader S E (list Transaction);
  RangeError : Z → E
}.

Section ReadBlocks.
Context {S E BlockHeader Transaction : Type}.
Context {D : Decoders S E BlockHeader Transaction}.

(** [new Array<Block>(n)] *)
Definition new_Array (n : Z) : Reader S E (JsArray (Block BlockHeader Transaction)) :=
  if bool_decide (0 ≤ n ≤ 4294967295)%Z
  then ret (replicate (Z.to_nat n) None)
  else throw (RangeError n).

(** The [for] loop of [readBlocks] from index [i] on, with
    [todo = blockCount - i] iterations left. *)
Fixpoint readBlocks_for (todo i : nat) (blocks : JsArray (Block BlockHeader Transaction))
    : Reader S E (JsArray (Block BlockHeader Transaction)) :=
  match todo with
  | O => ret blocks
  | Datatypes.S todo' =>
      blockHeader <- readBlockHeader ;;
      txs <- readTransactions ;;
      let block := {| header := blockHeader; transactions := txs |} in
      readBlocks_for todo' (Datatypes.S i) (<[i := Some block]> blocks)
  end.

Definition readBlocks : Reader S E (JsArray (Block BlockHeader Transaction)) :=
  blockCount <- readUInt32BE ;;
  blocks <- new_Array blockCount ;;
  readBlocks_for (Z.to_nat blockCount) 0 blocks.

(** The wire format as the specification words it: one group is a
    header followed by a transaction list; [read_groups n] reads [n]
    groups one after the other and lists the blocks in input order. *)
Definition read_group : Reader S E (Block BlockHeader Transaction) :=
  h <- readBlockHeader ;;
  txs <- readTransactions ;;
  ret {| header := h; transactions := txs |}.

Definition read_groups (n : nat) : Reader S E (list (Block BlockHeader Transaction)) :=
  read_many n read_group.

(** The group at index [i]: the one read after [i] groups were read. *)
Definition nth_group (i : nat) : Reader S E (Block BlockHeader Transaction) :=
  read_nth i read_group.

End ReadBlocks.

End Blocks.

(** ** The Byte Cursor

    The modules [./binaryReader], [./blockHeaderReader] and
    [./txReader] that [readBlocks] imports are not among the sources;
    what follows is written from the specification (§3, §4.1, §4.4,
    §4.6, §7). *)

Module Cursor.

(** Modelled from the spec: the error kinds of §7 ([./binaryReader] is
    missing), and next to them the [RangeError] of the JavaScript
    runtime, so that one type holds every value a decode can throw. *)
Inductive Thrown : Type :=
| TruncatedStream
| MalformedLength (declared : Z)
| UnknownVariant (tag : Z) (offset : nat)
| StructuralInvariantViolation
| InvalidArrayLength (n : Z).

(** Modelled from the spec: the Byte Cursor of §3 ([./binaryReader] is
    missing). [position] is the byte offset. The byte source is held as
    the bytes it has delivered and that are not read yet ([buffered])
    and the chunks it will still deliver ([incoming]); it is at end of
    stream when no chunk is left. *)
Record ByteCursor : Type := {
  position : nat;
  buffered : list byte;
  incoming : list (list byte)
}.

Definition endOfStream (c : ByteCursor) : bool :=
  match incoming c with [] => true | _ => false end.

(** Every byte the source holds or will deliver, in stream order. *)
Definition unread (c : ByteCursor) : list byte :=
  buffered c ++ concat (incoming c).

(** A cursor at offset 0 of a source that delivers [chunks]. *)
Definition open (chunks : list (list byte)) : ByteCursor :=
  {| position := 0; buffered := []; incoming := chunks |}.

(** Modelled from the spec: the suspension of §4.1 ("suspending first to
    await more input if the source may still deliver more";
    [./binaryReader] is missing). Awaits chunks until [n] bytes are
    buffered or the stream has ended. *)
Fixpoint await_bytes (n : nat) (buffered : list byte) (incoming : list (list byte))
    : list byte * list (list byte) :=
  match incoming with
  | [] => (buffered, [])
  | chunk :: later =>
      if (n <=? length buffered)%nat then (buffered, incoming)
      else await_bytes n (buffered ++ chunk) later
  end.

(** Modelled from the spec: [readFixed(n)] of §4.1 ([./binaryReader] is
    missing): exactly [n] raw bytes, or [TruncatedStream] once the
    stream has ended with fewer than [n] bytes left. *)
Definition readFixed (n : nat) : Reader ByteCursor Thrown (list byte) :=
  λ c,
    let '(buf, inc) := await_bytes n (buffered c) (incoming c) in
    if (n <=? length buf)%nat
    then (Ok (take n buf),
          {| position := position c + n; buffered := drop n buf; incoming := inc |})
    else (Err TruncatedStream,
          {| position := position c; buffered := buf; incoming := inc |}).

(** Modelled from the spec: the widths [readUInt] accepts, §4.1. *)
Inductive UIntWidth : Type := W1 | W2 | W4 | W8.

Definition width_bytes (w : UIntWidth) : nat :=
  match w with W1 => 1 | W2 => 2 | W4 => 4 | W8 => 8 end.

(** The unsigned big-endian value of a byte string. *)
Definition big_endian (bs : list byte) : Z :=
  foldl (λ acc b, acc * 256 + Z.of_N (Byte.to_N b))%Z 0%Z bs.

(** Modelled from the spec: [readUInt(width)] of §4.1 ([./binaryReader]
    is missing). *)
Definition readUInt (width : UIntWidth) : Reader ByteCursor Thrown Z :=
  bs <- readFixed (width_bytes width) ;;
  ret (big_endian bs).

Section Bounded.

(** The protocol-defined maximum of a declared length (§9 leaves its
    value open). *)
Variable maxLength : Z.

(** Modelled from the spec: [readLengthPrefixed(prefixWidth)] of §4.1
    ([./binaryReader] is missing). *)
Definition readLengthPrefixed (prefixWidth : UIntWidth) : Reader ByteCursor Thrown (list byte) :=
  len <- readUInt prefixWidth ;;
  if bool_decide (maxLength < len)%Z then throw (MalformedLength len)
  else readFixed (Z.to_nat len).

(** The three read primitives as one operation type, with what each
    returns. *)
Inductive CursorOp : Type :=
| DoReadUInt (width : UIntWidth)
| DoReadFixed (n : nat)
| DoReadLengthPrefixed (prefixWidth : UIntWidth).

Inductive ReadValue : Type :=
| UIntValue (n : Z)
| BytesValue (bs : list byte).

Definition perform (op : CursorOp) : Reader ByteCursor Thrown ReadValue :=
  match op with
  | DoReadUInt w => n <- readUInt w ;; ret (UIntValue n)
  | DoReadFixed n => bs <- readFixed n ;; ret (BytesValue bs)
  | DoReadLengthPrefixed w => bs <- readLengthPrefixed w ;; ret (BytesValue bs)
  end.

(** The length a [readLengthPrefixed] finds declared on the stream, the
    number of bytes each operation asks of the stream, and the value an
    operation makes of the bytes it consumed. *)
Definition declared (w : UIntWidth) (c : ByteCursor) : Z :=
  big_endian (take (width_bytes w) (unread c)).

Definition required (op : CursorOp) (c : ByteCursor) : nat :=
  match op with
  | DoReadUInt w => width_bytes w
  | DoReadFixed n => n
  | DoReadLengthPrefixed w => width_bytes w + Z.to_nat (declared w c)
  end.

Definition value_read (op : CursorOp) (consumed : list byte) : ReadValue :=
  match op with
  | DoReadUInt _ => UIntValue (big_endian consumed)
  | DoReadFixed _ => BytesValue consumed
  | DoReadLengthPrefixed w => BytesValue (drop (width_bytes w) consumed)
  end.

(** The cursor an operation leaves, whether it returns or fails. *)
Definition step (c : ByteCursor) (op : CursorOp) : ByteCursor := (perform op c).2.

(** The cursors a sequence of operations goes through, the first
    excluded. *)
Fixpoint steps (c : ByteCursor) (ops : list CursorOp) : list ByteCursor :=
  match ops with
  | [] => []
  | op :: ops' => step c op :: steps (step c op) ops'
  end.

End Bounded.

(** Modelled from the spec: the Block Header of §3 and its decoder of
    §4.4 ([./blockHeaderReader] is missing). The width of a hash and of
    the timestamp are the protocol's. *)
Record BlockHeader : Type := {
  version : Z;
  parent_block : list byte;
  tx_merkle_root : list byte;
  state_root : list byte;
  microblock_root : list byte;
  timestamp : Z
}.

Definition readBlockHeader (hashWidth : nat) (timestampWidth : UIntWidth)
    : Reader ByteCursor Thrown BlockHeader :=
  v <- readUInt W1 ;;
  parent <- readFixed hashWidth ;;
  txRoot <- readFixed hashWidth ;;
  stateRoot <- readFixed hashWidth ;;
  microRoot <- readFixed hashWidth ;;
  ts <- readUInt timestampWidth ;;
  ret {| version := v; parent_block := parent; tx_merkle_root := txRoot;
         state_root := stateRoot; microblock_root := microRoot; timestamp := ts |}.

(** Modelled from the spec: the transaction list of §4.6, "a
    transaction count (4-byte) followed by that many Transaction Decoder
    invocations" ([./txReader] is missing). *)
Definition readTransactions {Transaction} (readTransaction : Reader ByteCursor Thrown Transaction)
    : Reader ByteCursor Thrown (list Transaction) :=
  count <- readUInt W4 ;;
  read_many (Z.to_nat count) readTransaction.

(** [readBlocks] over a Byte Cursor: the count is read by
    [readUInt W4], whatever the header and transaction-list decoders
    are. *)
Definition cursor_decoders {BlockHeader Transaction}
    (readBlockHeader : Reader ByteCursor Thrown BlockHeader)
    (readTransactions : Reader ByteCursor Thrown (list Transaction))
    : Blocks.Decoders ByteCursor Thrown BlockHeader Transaction := {|
  Blocks.readUInt32BE := readUInt W4;
  Blocks.readBlockHeader := readBlockHeader;
  Blocks.readTransactions := readTransactions;
  Blocks.RangeError := InvalidArrayLength
|}.

(** The decoders of a protocol with 2-byte hashes and a 4-byte
    timestamp, whose transaction is one blob with a 2-byte length of
    at most 255: small enough to write streams out in full. *)
Definition small_decoders : Blocks.Decoders ByteCursor Thrown BlockHeader (list byte) :=
  cursor_decoders (readBlockHeader 2 W4) (readTransactions (readLengthPrefixed 255 W2)).

Definition small_readBlocks
    : Reader ByteCursor Thrown (Blocks.JsArray (Blocks.Block BlockHeader (list byte))) :=
  Blocks.readBlocks (D := small_decoders).

(** Streams for [small_readBlocks]. A header is 13 bytes: version,
    parent, three roots, timestamp. *)
Definition header_A : list byte :=
  [x01; xa0; xa1; xb0; xb1; xc0; xc1; xd0; xd1; x00; x00; x00; x2a].

Definition header_B : list byte :=
  [x02; xa2; xa3; xb2; xb3; xc2; xc3; xd2; xd3; x00; x00; x01; x00].

(** Block A with the transactions [61] and [62 63], then block B with
    no transaction. *)
Definition two_blocks : list byte :=
  [x00; x00; x00; x02]
  ++ header_A ++ [x00; x00; x00; x02] ++ [x00; x01; x61] ++ [x00; x02; x62; x63]
  ++ header_B ++ [x00; x00; x00; x00].

Definition block_A : Blocks.Block BlockHeader (list byte) :=
  {| Blocks.header :=
       {| version := 1; parent_block := [xa0; xa1]; tx_merkle_root := [xb0; xb1];
          state_root := [xc0; xc1]; microblock_root := [xd0; xd1]; timestamp := 42 |};
     Blocks.transactions := [[x61]; [x62; x63]] |}.

Definition block_B : Blocks.Block BlockHeader (list byte) :=
  {| Blocks.header :=
       {| version := 2; parent_block := [xa2; xa3]; tx_merkle_root := [xb2; xb3];
          state_root := [xc2; xc3]; microblock_root := [xd2; xd3]; timestamp := 256 |};
     Blocks.transactions := [] |}.

(** The same stream delivered in three chunks, the first of which ends
    inside the block count. *)
Definition two_blocks_chunked : list (list byte) :=
  [take 3 two_blocks; take 20 (drop 3 two_blocks); drop 23 two_blocks].

(** A block count of zero, followed by two bytes that belong to
    whatever comes next on the stream. *)
Definition no_blocks : list byte := [x00; x00; x00; x00; xde; xad].

(** The largest block count, and nothing after it. *)
Definition huge_count : list byte := [xff; xff; xff; xff].

(** A cursor that has read everything a source delivered. *)
Definition drained (position : nat) : ByteCursor :=
  {| position := position; buffered := []; incoming := [] |}.

End Cursor.

(** ** Regular expressions

    [RegExp.prototype.test] for a regular expression anchored at both
    ends ([^...$], no flags), over the constructs the helpers use:
    character classes, sequence, alternation, [?], [+] and [*]. The
    matcher works by derivatives; [matches] says what it decides. *)

Module RegExp.

Inductive regex : Type :=
| Never
| Empty
| Class (p : ascii → bool)
| Seq (r1 r2 : regex)
| Alt (r1 r2 : regex)
| Star (r : regex).

(** [r?], [r+], a literal, and the classes [[a-b]] and [[xyz]]. *)
Definition opt (r : regex) : regex := Alt Empty r.
Definition plus (r : regex) : regex := Seq r (Star r).

Fixpoint lit (s : string) : regex :=
  match s with
  | EmptyString => Empty
  | String c s' => Seq (Class (λ x, bool_decide (x = c))) (lit s')
  end.

Definition range (lo hi : ascii) : ascii → bool :=
  λ c, ((N_of_ascii lo <=? N_of_ascii c) && (N_of_ascii c <=? N_of_ascii hi))%N.

Definition one_of (cs : string) : ascii → bool :=
  λ c, bool_decide (c ∈ list_ascii_of_string cs).

Definition either (p q : ascii → bool) : ascii → bool := λ c, p c || q c.

Fixpoint nullable (r : regex) : bool :=
  match r with
  | Never => false
  | Empty => true
  | Class _ => false
  | Seq r1 r2 => nullable r1 && nullable r2
  | Alt r1 r2 => nullable r1 || nullable r2
  | Star _ => true
  end.

Fixpoint deriv (c : ascii) (r : regex) : regex :=
  match r with
  | Never => Never
  | Empty => Never
  | Class p => if p c then Empty else Never
  | Seq r1 r2 =>
      if nullable r1 then Alt (Seq (deriv c r1) r2) (deriv c r2)
      else Seq (deriv c r1) r2
  | Alt r1 r2 => Alt (deriv c r1) (deriv c r2)
  | Star r1 => Seq (deriv c r1) (Star r1)
  end.

(** [/^r$/.test(s)] *)
Fixpoint test (r : regex) (s : string) : bool :=
  match s with
  | EmptyString => nullable r
  | String c s' => test (deriv c r) s'
  end.

(** The strings a regular expression matches in full. *)
Inductive matches : regex → string → Prop :=
| matches_Empty : matches Empty ""
| matches_Class p c : p c = true → matches (Class p) (String c "")
| matches_Seq r1 r2 s1 s2 :
    matches r1 s1 → matches r2 s2 → matches (Seq r1 r2) (s1 +:+ s2)
| matches_Alt_l r1 r2 s : matches r1 s → matches (Alt r1 r2) s
| matches_Alt_r r1 r2 s : matches r2 s → matches (Alt r1 r2) s
| matches_Star_nil r : matches (Star r) ""
| matches_Star_more r s1 s2 :
    matches r s1 → matches (Star r) s2 → matches (Star r) (s1 +:+ s2).

End RegExp.

(** ** Helpers: principals *)

Module Principal.
Import RegExp.

(** [str.includes('.')] *)
Fixpoint includes_dot (s : string) : bool :=
  match s with
  | EmptyString => false
  | String c s' => bool_decide (c = "."%char) || includes_dot s'
  end.

(** [str.split('.')]: the fields between the dots, at least one. *)
Fixpoint split_dot (s : string) : list string :=
  match s with
  | EmptyString => [EmptyString]
  | String c s' =>
      if bool_decide (c = "."%char) then EmptyString :: split_dot s'
      else match split_dot s' with
           | field :: fields => String c field :: fields
           | [] => [String c EmptyString]
           end
  end.

(** [/^[a-zA-Z]([a-zA-Z0-9]|[-_])*$/] *)
Definition contractNameRegex : regex :=
  Seq (Class (either (range "a" "z") (range "A" "Z")))
      (Star (Alt (Class (either (either (range "a" "z") (range "A" "Z")) (range "0" "9")))
                 (Class (one_of "-_")))).

Definition isValidContractName (contractName : string) : bool :=
  let CONTRACT_MIN_NAME_LENGTH := 5 in
  let CONTRACT_MAX_NAME_LENGTH := 128 in
  if ((CONTRACT_MAX_NAME_LENGTH <? String.length contractName)%nat
      || (String.length contractName <? CONTRACT_MIN_NAME_LENGTH)%nat)
  then false
  else test contractNameRegex contractName.

(** What [isValidPrincipal] returns besides [false]. *)
Inductive PrincipalType : Type := standardAddress | contractAddress.

Section WithC32.

(** [c32addressDecode] of the [c32check] package, as far as
    [isValidC32Address] looks at it: whether it returns or throws. *)
Variable c32addressDecode_returns : string → bool.

Definition isValidC32Address (stxAddress : string) : bool :=
  c32addressDecode_returns stxAddress.

(** [isValidPrincipal] on a string; [None] is [false]. A destructured
    field that is missing is [undefined], which [c32addressDecode] and
    the length test reject. *)
Definition isValidPrincipal (principal : string) : option PrincipalType :=
  if bool_decide (principal = EmptyString) then None
  else if includes_dot principal then
    match split_dot principal with
    | addr :: contractName :: _ =>
        if negb (isValidC32Address addr) then None
        else if negb (isValidContractName contractName) then None
        else Some contractAddress
    | _ => None
    end
  else if isValidC32Address principal then Some standardAddress
  else None.

End WithC32.

(** The characters of a contract name, as the regular expression
    lists them. *)
Definition letter (c : ascii) : bool :=
  bool_decide (c ∈ list_ascii_of_string "abcdefghijklmnopqrstuvwxyzABCDEFGHIJKLMNOPQRSTUVWXYZ").

Definition name_char (c : ascii) : bool :=
  bool_decide (c ∈ list_ascii_of_string
    "abcdefghijklmnopqrstuvwxyzABCDEFGHIJKLMNOPQRSTUVWXYZ0123456789-_").

(** A [c32addressDecode] that returns on one address only. *)
Definition only_address (address : string) : string → bool :=
  λ s, bool_decide (s = address).

End Principal.

(** ** Helpers: ports *)

Module Port.
Import RegExp.

(** A JavaScript number, as far as [parsePort] can meet one: an
    integer, an infinity, or [NaN]. (A number with a fraction prints
    with a point or an exponent, which the regular expression of
    [parsePort] rejects; so does an integer of 22 digits or more.) *)
Inductive NumberValue : Type :=
| Finite (z : Z)
| Infinity (negative : bool)
| NaN.

(** The argument of [parsePort]. *)
Inductive PortVal : Type :=
| PortUndefined
| PortString (s : string)
| PortNumber (n : NumberValue).

(** [n.toString()] *)
Definition Number_toString (n : NumberValue) : string :=
  match n with
  | Finite z => Js.Number_toString z
  | Infinity false => "Infinity"
  | Infinity true => "-Infinity"
  | NaN => "NaN"
  end.

Definition toString (portVal : PortVal) : string :=
  match portVal with
  | PortUndefined => "undefined"
  | PortString s => s
  | PortNumber n => Number_toString n
  end.

(** The value of a string of decimal digits, read from the left. *)
Fixpoint digits_value (acc : Z) (s : string) : option Z :=
  match s with
  | EmptyString => Some acc
  | String c s' =>
      if ((48 <=? N_of_ascii c) && (N_of_ascii c <=? 57))%N
      then digits_value (acc * 10 + Z.of_N (N_of_ascii c - 48)) s'
      else None
  end.

Definition unsigned_value (s : string) : NumberValue :=
  if bool_decide (s = "Infinity") then Infinity false
  else match s with
       | EmptyString => NaN
       | _ => match digits_value 0 s with Some z => Finite z | None => NaN end
       end.

Definition negate (n : NumberValue) : NumberValue :=
  match n with
  | Finite z => Finite (- z)
  | Infinity b => Infinity (negb b)
  | NaN => NaN
  end.

(** [Number(s)] for a signed decimal numeral or a signed [Infinity],
    the strings on which [parsePort] calls it. *)
Definition Number_of_string (s : string) : NumberValue :=
  match s with
  | String "-" s' => negate (unsigned_value s')
  | String "+" s' => unsigned_value s'
  | _ => unsigned_value s
  end.

Definition Number (portVal : PortVal) : NumberValue :=
  match portVal with
  | PortUndefined => NaN
  | PortString s => Number_of_string s
  | PortNumber n => n
  end.

(** [a < b] and [a > b] on numbers: false when either is [NaN]. *)
Definition lt (a : NumberValue) (b : Z) : bool :=
  match a with
  | Finite z => (z <? b)%Z
  | Infinity negative => negative
  | NaN => false
  end.

Definition gt (a : NumberValue) (b : Z) : bool :=
  match a with
  | Finite z => (b <? z)%Z
  | Infinity negative => negb negative
  | NaN => false
  end.

(** A decimal digit, [\d]. *)
Definition digit (c : ascii) : bool := range "0" "9" c.

(** [/^[-+]?(\d+|Infinity)$/] *)
Definition portRegex : regex :=
  Seq (opt (Class (one_of "-+")))
      (Alt (plus (Class (range "0" "9"))) (lit "Infinity")).

(** The [Error] thrown by [parsePort]; its message shows the port. *)
Inductive PortError : Type := PortInvalid (portVal : PortVal).

Definition parsePort (portVal : PortVal) : result PortError (option NumberValue) :=
  match portVal with
  | PortUndefined => Ok None
  | _ =>
      if test portRegex (toString portVal) then
        let port := Number portVal in
        if lt port 1 || gt port 65535 then Err (PortInvalid portVal)
        else Ok (Some port)
      else Err (PortInvalid portVal)
  end.

End Port.

(** ** Helpers: a map as a cache *)

Module GetOrAdd.

Section WithMap.
Context {K : Type} `{Countable K} {V W : Type}.

(** A [Map<K, V>] whose values may be [undefined] ([None]), and
    [map.get(key)], which is also [undefined] for a missing key. *)
Definition Map_get (map : gmap K (option V)) (key : K) : option V :=
  match map !! key with
  | Some val => val
  | None => None
  end.

(** What a call of the closure [create] does: it runs on the heap,
    which holds the map itself beside the rest of the program's state
    [W], may write to both, and returns a value or throws. *)
Definition Create (E : Type) : Type :=
  gmap K (option V) → W → result E (option V) * gmap K (option V) * W.

(** [getOrAdd(map, key, create)]: the outcome, the map and the rest of
    the state after the call. When [create] throws, [map.set] is not
    reached. *)
Definition getOrAdd {E : Type} (map : gmap K (option V)) (key : K) (create : Create E)
    (world : W) : result E (option V) * gmap K (option V) * W :=
  match Map_get map key with
  | Some val => (Ok (Some val), map, world)
  | None =>
      match create map world with
      | (Ok val, map', world') => (Ok val, <[key := val]> map', world')
      | (Err e, map', world') => (Err e, map', world')
      end
  end.

End WithMap.

End GetOrAdd.

(** ** Helpers: parsing an enum value *)

Module EnumParse.
Import Enum.

(** What [parseEnum] throws: the error made by the formatter passed to
    it, or its own. *)
Inductive ParseEnumError (Error : Type) : Type :=
| Formatted (error : Error)
| FailedToParse (num : Z).
Arguments Formatted {Error} error.
Arguments FailedToParse {Error} num.

Definition parseEnum {Error : Type} (objects : ObjRef → EnumObject)
    (enumVariable : ObjRef) (num : Z) (invalidEnumErrorFormatter : option (Z → Error))
    (st : Caches) : result (ParseEnumError Error) Z * Caches :=
  let '(valid, st') := isEnum objects enumVariable num st in
  if valid then (Ok num, st')
  else match invalidEnumErrorFormatter with
       | Some formatter => (Err (Formatted (formatter num)), st')
       | None => (Err (FailedToParse num), st')
       end.

(** The map [getEnumDescription] builds for an enum object, and the
    caches in which every stored map is the one built from its
    object. *)
Definition enumMap_of (o : EnumObject) : gmap PropValue string :=
  Map_from ((λ kv : string * PropValue, (kv.2, kv.1)) <$>
    filter (λ kv, typeof_number kv.2 = true) (Object_entries o)).

Definition maps_coherent (objects : ObjRef → EnumObject) (st : Caches) : Prop :=
  ∀ r m, enumMaps st !! r = Some m → m = enumMap_of (objects r).

(** The name shown for a value: that of the last property, in
    [Object.entries] order, that has the value. *)
Definition name_of (o : EnumObject) (v : Z) : option string :=
  last (fst <$> filter (λ kv : string * PropValue, kv.2 = PNum v) (Object_entries o)).

(** An enum with two names for one value. *)
Definition Shade : EnumObject :=
  [("7", PStr "Grey"); ("Gray", PNum 7); ("Grey", PNum 7)].

End EnumParse.

(** ** Helpers: escaping a CSS selector name *)

Module Css.

Local Close Scope string_scope.
Local Open Scope N_scope.

(** [n.toString(16)] for a code unit [n], that is for [n < 65536]: its
    four hexadecimal digits without the leading zeros. *)
Fixpoint strip_zeros (digits : list N) : list N :=
  match digits with
  | 0 :: (_ :: _) as rest => strip_zeros rest
  | _ => digits
  end.

Definition toString16 (n : N) : list N :=
  Node.hex_digit
    <$> strip_zeros [n / 4096 mod 16; n / 256 mod 16; n / 16 mod 16; n mod 16].

(** [a == b] for the first code unit, which is [NaN] ([None]) for
    the empty string. *)
Definition first_is (firstCodeUnit : option N) (c : N) : bool :=
  match firstCodeUnit with
  | Some x => x =? c
  | None => false
  end.

(** The [while] loop of [cssEscape] at [index], over the code units
    from [index] on. A string is the list of its UTF-16 code units. *)
Fixpoint cssEscape_while (length : nat) (firstCodeUnit : option N)
    (index : nat) (rest : list N) (result : list N) : list N :=
  match rest with
  | [] => result
  | codeUnit :: rest' =>
      let continue := cssEscape_while length firstCodeUnit (S index) rest' in
      if codeUnit =? 0x0000 then continue (result ++ [0xFFFD])
      else if ((0x0001 <=? codeUnit) && (codeUnit <=? 0x001f))
              || (codeUnit =? 0x007f)
              || ((index =? 0)%nat && (0x0030 <=? codeUnit) && (codeUnit <=? 0x0039))
              || ((index =? 1)%nat && (0x0030 <=? codeUnit) && (codeUnit <=? 0x0039)
                  && first_is firstCodeUnit 0x002d)
      then continue (result ++ [0x5c] ++ toString16 codeUnit ++ [0x20])
      else if (index =? 0)%nat && (length =? 1)%nat && (codeUnit =? 0x002d)
      then continue (result ++ [0x5c; codeUnit])
      else if (0x0080 <=? codeUnit)
              || (codeUnit =? 0x002d)
              || (codeUnit =? 0x005f)
              || ((0x0030 <=? codeUnit) && (codeUnit <=? 0x0039))
              || ((0x0041 <=? codeUnit) && (codeUnit <=? 0x005a))
              || ((0x0061 <=? codeUnit) && (codeUnit <=? 0x007a))
      then continue (result ++ [codeUnit])
      else continue (result ++ [0x5c; codeUnit])
  end.

Definition cssEscape (value : list N) : list N :=
  cssEscape_while (List.length value) (head value) 0 value [].

(** The code units that need no escape inside a name: letters, digits,
    hyphen, underscore, and everything from U+0080 on. *)
Definition plain (c : N) : bool :=
  (0x80 <=? c)
  || bool_decide (c ∈ N_of_ascii <$> list_ascii_of_string
       "abcdefghijklmnopqrstuvwxyzABCDEFGHIJKLMNOPQRSTUVWXYZ0123456789-_"%string).

Definition is_digit (c : N) : bool := (0x30 <=? c) && (c <=? 0x39).

(** A name that needs no escape at all: it is made of plain code
    units, does not start with a digit, nor with a hyphen that a digit
    follows, and is not a hyphen alone. *)
Definition plain_name (value : list N) : Prop :=
  Forall (λ c, plain c = true) value
  ∧ (∀ c0, head value = Some c0 → is_digit c0 = false)
  ∧ (head value = Some 0x2d →
     match tail value with
     | [] => False
     | c1 :: _ => is_digit c1 = false
     end).

End Css.

Section HexExamples.
Import Node.

Example bufferToHexPrefixString_ex :
  bufferToHexPrefixString [x00; xab; xff] = code_units "0x00abff".
Proof. reflexivity. Qed.

Example hexToBuffer_ex :
  hexToBuffer (code_units "0x00ABff") = Ok [x00; xab; xff].
Proof. reflexivity. Qed.

Example hexToBuffer_stops :
  hexToBuffer (code_units "0x12zz34") = Ok [x12].
Proof. reflexivity. Qed.

Example hexToBuffer_throws :
  hexToBuffer (code_units "12ab") = Err (MissingPrefix (code_units "12ab"))
  ∧ hexToBuffer (code_units "0x12a") = Err (OddDigits (code_units "0x12a")).
Proof. split; reflexivity. Qed.

(** Code units above U+00FF are read by their low byte: U+0130 and
    U+0131 decode as [0] and [1]. *)
Example hexToBuffer_low_bytes :
  hexToBuffer (code_units "0x" ++ [0x130; 0x131]%N) = Ok [x01].
Proof. reflexivity. Qed.

Example normalizeHashString_ex :
  normalizeHashString
    (InString (code_units "0XABCDEF0123456789abcdef0123456789ABCDEF0123456789abcdef0123456789"))
  = Some (code_units "0xabcdef0123456789abcdef0123456789abcdef0123456789abcdef0123456789")
  ∧ normalizeHashString
      (InString (code_units "ABCDEF0123456789abcdef0123456789ABCDEF0123456789abcdef0123456789"))
    = Some (code_units "0xabcdef0123456789abcdef0123456789abcdef0123456789abcdef0123456789")
  ∧ normalizeHashString
      (InString (code_units "0xABCDEF0123456789abcdef0123456789ABCDEF0123456789abcdef01234567"))
    = None
  ∧ normalizeHashString
      (InString (code_units "0xABCDEF0123456789abcdef0123456789ABCDEF0123456789abcdef01234567zz"))
    = None.
Proof. repeat split; vm_compute; reflexivity. Qed.

End HexExamples.

(** * Properties *)

(** ** Hex strings *)

Section HexFacts.
Import Node.

Local Close Scope string_scope.

Lemma code_units_0x : code_units "0x" = [48; 120]%N.
Proof. reflexivity. Qed.

Lemma code_units_0X : code_units "0X" = [48; 88]%N.
Proof. reflexivity. Qed.

(** Induction on a string two code units at a time. *)
Lemma pairs_ind (P : JsString → Prop) :
  P [] → (∀ a, P [a]) → (∀ a b rest, P rest → P (a :: b :: rest)) → ∀ s, P s.
Proof.
  intros Hnil Hone Hpair.
  assert (∀ s, P s ∧ ∀ a, P (a :: s)) as H; [|intros s; apply H].
  induction s as [|b s [IH1 IH2]]; [by split|].
  split; [apply IH2|]. intros a. by apply Hpair.
Qed.

Lemma from_hex_pair (a b : N) (rest : JsString) :
  from_hex (a :: b :: rest) =
    match unhex a, unhex b with
    | Some h, Some l =>
        match Byte.of_N (16 * h + l) with
        | Some x => x :: from_hex rest
        | None => []
        end
    | _, _ => []
    end.
Proof. reflexivity. Qed.

(** The two digits written for a byte read back as that byte. *)
Lemma unhex_hex_digits (b : byte) :
  unhex (hex_digit (Byte.to_N b / 16)) = Some (Byte.to_N b / 16)%N
  ∧ unhex (hex_digit (Byte.to_N b mod 16)) = Some (Byte.to_N b mod 16)%N
  ∧ Byte.of_N (16 * (Byte.to_N b / 16) + Byte.to_N b mod 16) = Some b.
Proof. destruct b; vm_compute; auto. Qed.

Lemma from_hex_toString_hex (buff : Buffer) : from_hex (toString_hex buff) = buff.
Proof.
  induction buff as [|b rest IH]; [reflexivity|].
  cbn [toString_hex]. rewrite from_hex_pair.
  destruct (unhex_hex_digits b) as (-> & -> & ->).
  by rewrite IH.
Qed.

Lemma length_toString_hex (buff : Buffer) :
  length (toString_hex buff) = 2 * length buff.
Proof. induction buff as [|b rest IH]; cbn [toString_hex length]; lia. Qed.

Lemma even_mod_2 (n : nat) : (2 + 2 * n) mod 2 = 0.
Proof.
  replace (2 + 2 * n) with ((1 + n) * 2) by lia. apply Nat.Div0.mod_mul.
Qed.

(** The decoder looks at the low byte only. *)
Lemma unhex_low_byte (c : N) : unhex (c mod 256) = unhex c.
Proof. unfold unhex. by rewrite N.Div0.mod_mod. Qed.

Lemma from_hex_low_bytes (s : JsString) : from_hex (low_bytes s) = from_hex s.
Proof.
  induction s as [| |a b rest IH] using pairs_ind; [done..|].
  change (low_bytes (a :: b :: rest))
    with ((a mod 256)%N :: (b mod 256)%N :: low_bytes rest).
  by rewrite !from_hex_pair, !unhex_low_byte, IH.
Qed.

Lemma length_low_bytes (s : JsString) : length (low_bytes s) = length s.
Proof. apply length_fmap. Qed.

(** A hexadecimal character is a code unit of Basic Latin. *)
Lemma hex_char_byte (c : N) : hex_char c = true → (c < 256)%N.
Proof.
  unfold hex_char. rewrite bool_decide_eq_true. cbn.
  rewrite !elem_of_cons, elem_of_nil. intros H.
  repeat (destruct H as [-> | H]; [lia|]). done.
Qed.

Lemma low_bytes_hex_digits (n : nat) (s : JsString) :
  hex_digits n s → low_bytes s = s.
Proof.
  intros [_ Hall]. induction Hall as [|c s Hc _ IH]; [done|].
  cbn. rewrite N.mod_small by by apply hex_char_byte.
  f_equal. exact IH.
Qed.

(** A byte is a hexadecimal character exactly when [unhex] gives it a
    value; the value is a nibble, and its digit is the character in
    lower case. *)
Lemma unhex_byte (c : N) :
  (c < 256)%N →
  match unhex c with
  | Some h => hex_char c = true ∧ (h < 16)%N ∧ hex_digit h = lower_char c
              ∧ hex_char (lower_char c) = true
  | None => hex_char c = false
  end.
Proof.
  intros Hc. rewrite <- (N_ascii_embedding c Hc).
  destruct (ascii_of_N c) as [[] [] [] [] [] [] [] []]; vm_compute; auto.
Qed.

Lemma unhex_hex_char (c : N) :
  match unhex c with
  | Some h => hex_char (c mod 256) = true ∧ (h < 16)%N
              ∧ hex_digit h = lower_char (c mod 256)
              ∧ hex_char (lower_char (c mod 256)) = true
  | None => hex_char (c mod 256) = false
  end.
Proof.
  rewrite <- unhex_low_byte. apply unhex_byte. by apply N.mod_lt.
Qed.

Lemma unhex_Some (c : N) :
  hex_char c = true → ∃ h, unhex c = Some h ∧ (h < 16)%N ∧ hex_digit h = lower_char c.
Proof.
  intros Hc. pose proof (unhex_byte c (hex_char_byte c Hc)) as H.
  destruct (unhex c) as [h|]; [|congruence].
  destruct H as (_ & ? & ? & _). eauto.
Qed.

Lemma nibbles_byte (h l : N) :
  (h < 16)%N → (l < 16)%N →
  ∃ x, Byte.of_N (16 * h + l) = Some x
       ∧ (Byte.to_N x / 16 = h)%N ∧ (Byte.to_N x mod 16 = l)%N.
Proof.
  intros Hh Hl.
  destruct (Byte.of_N (16 * h + l)) as [x|] eqn:Hx.
  - exists x. split; [done|]. apply Byte.to_of_N in Hx. rewrite Hx. split.
    + symmetry. apply (N.div_unique _ 16 h l); lia.
    + symmetry. apply (N.mod_unique _ 16 h l); lia.
  - apply Byte.of_N_None_iff in Hx. lia.
Qed.

(** [from_hex] on a string of [2 * n] hexadecimal digits: [n] bytes,
    whose hex form is the string in lower case. *)
Lemma from_hex_digits (n : nat) (s : JsString) :
  hex_digits (2 * n) s →
  length (from_hex s) = n ∧ toString_hex (from_hex s) = toLowerCase s.
Proof.
  revert s. induction n as [|n IH]; intros s [Hlen Hall].
  - destruct s; [done | discriminate].
  - destruct s as [|a [|b rest]]; try (cbn in Hlen; lia).
    apply Forall_cons in Hall as [Ha Hall]. apply Forall_cons in Hall as [Hb Hall].
    destruct (unhex_Some a Ha) as (h & Hh & Hh16 & Hha).
    destruct (unhex_Some b Hb) as (l & Hl & Hl16 & Hlb).
    destruct (nibbles_byte h l Hh16 Hl16) as (x & Hx & Hdiv & Hmod).
    rewrite from_hex_pair, Hh, Hl, Hx.
    destruct (IH rest) as [IHlen IHstr].
    { split; [cbn in Hlen; lia | done]. }
    cbn [length toString_hex]. unfold toLowerCase. cbn [fmap list_fmap].
    fold (toLowerCase rest).
    rewrite Hdiv, Hmod, Hha, Hlb, IHlen, IHstr. done.
Qed.

(** Conversely [from_hex] yields [n] bytes from [2 * n] code units only
    when the low byte of every code unit is a hexadecimal digit. *)
Lemma from_hex_full (n : nat) (s : JsString) :
  length s = 2 * n → length (from_hex s) = n → hex_digits (2 * n) (low_bytes s).
Proof.
  revert s. induction n as [|n IH]; intros s Hlen Hbytes.
  - destruct s; [by split; [|constructor] | discriminate].
  - destruct s as [|a [|b rest]]; try (cbn in Hlen; lia).
    rewrite from_hex_pair in Hbytes.
    pose proof (unhex_hex_char a) as Ha. pose proof (unhex_hex_char b) as Hb.
    destruct (unhex a) as [h|]; [|discriminate].
    destruct (unhex b) as [l|]; [|discriminate].
    destruct (Byte.of_N (16 * h + l)) as [x|]; [|discriminate].
    destruct (IH rest) as [_ Hrest]; [cbn in Hlen; lia | cbn in Hbytes; lia |].
    split; [by rewrite length_low_bytes|].
    destruct Ha as [Ha _], Hb as [Hb _].
    change (low_bytes (a :: b :: rest))
      with ((a mod 256)%N :: (b mod 256)%N :: low_bytes rest).
    by repeat constructor.
Qed.

(** What [from_hex] makes of the low bytes, whatever the code units. *)
Lemma from_hex_low_digits (n : nat) (s : JsString) :
  hex_digits (2 * n) (low_bytes s) →
  length (from_hex s) = n ∧ toString_hex (from_hex s) = toLowerCase (low_bytes s).
Proof.
  intros H%from_hex_digits. by rewrite from_hex_low_bytes in H.
Qed.

Lemma toLowerCase_hex_digits (n : nat) (s : JsString) :
  hex_digits n s → hex_digits n (toLowerCase s).
Proof.
  intros [Hlen Hall]. split; [unfold toLowerCase; by rewrite length_fmap|].
  unfold toLowerCase. apply Forall_fmap. eapply Forall_impl; [exact Hall|].
  intros c Hc. cbn. pose proof (unhex_byte c (hex_char_byte c Hc)) as H.
  destruct (unhex c); [by destruct H as (_ & _ & _ & ?) | congruence].
Qed.

(** The code units that lower to [0] and to [x]. *)
Lemma lower_char_0x (c : N) :
  (lower_char c = 48%N → c = 48%N)
  ∧ (lower_char c = 120%N → c = 120%N ∨ c = 88%N).
Proof.
  unfold lower_char.
  destruct ((65 <=? c) && (c <=? 90))%N eqn:Hcap.
  - apply andb_true_iff in Hcap as [?%N.leb_le ?%N.leb_le]. split; lia.
  - destruct ((192 <=? c) && (c <=? 222) && negb (c =? 215))%N eqn:Hlat.
    + apply andb_true_iff in Hlat as [[?%N.leb_le ?%N.leb_le]%andb_true_iff _].
      split; lia.
    + split; auto.
Qed.

(** The strings that [has0xPrefix] accepts. *)
Lemma has0xPrefix_true (id : JsString) :
  has0xPrefix id = true
  ↔ ∃ rest, id = code_units "0x" ++ rest ∨ id = code_units "0X" ++ rest.
Proof.
  unfold has0xPrefix. rewrite bool_decide_eq_true, code_units_0x, code_units_0X.
  split.
  - destruct id as [|a [|b rest]]; [discriminate| |].
    { cbn. intros [=]. }
    unfold toLowerCase, substr0. cbn [take fmap list_fmap].
    intros [= Ha Hb]. exists rest.
    apply (lower_char_0x a) in Ha as ->.
    apply (lower_char_0x b) in Hb as [-> | ->]; [by left | by right].
  - intros [rest [-> | ->]]; vm_compute; reflexivity.
Qed.

Lemma mod_2_SS (n : nat) : S (S n) mod 2 = n mod 2.
Proof.
  replace (S (S n)) with (n + 1 * 2) by lia. apply Nat.Div0.mod_add.
Qed.

(** [hexToBuffer] on a string that starts with [0x]. *)
Lemma hexToBuffer_0x (d : JsString) :
  hexToBuffer (code_units "0x" ++ d)
  = if Nat.eqb (length d mod 2) 0 then Ok (from_hex d)
    else Err (OddDigits (code_units "0x" ++ d)).
Proof.
  unfold hexToBuffer, startsWith, substring_from. rewrite code_units_0x.
  cbn [app length take drop].
  rewrite bool_decide_eq_true_2 by done. cbn [negb].
  rewrite mod_2_SS. by destruct (Nat.eqb _ _).
Qed.

Lemma even_length_mod (n : nat) : (2 * n) mod 2 = 0.
Proof. rewrite Nat.mul_comm. apply Nat.Div0.mod_mul. Qed.

End HexFacts.

Section HexTheorems.
Import Node.

Local Close Scope string_scope.

(** C8. Encoding a buffer as a [0x]-prefixed lower-case hex string and
    decoding the string again gives the buffer back: for every [Buffer]
    [buff], [hexToBuffer (bufferToHexPrefixString buff)] succeeds and
    returns [buff]. *)
Theorem hexToBuffer_bufferToHexPrefixString (buff : Buffer) :
  hexToBuffer (bufferToHexPrefixString buff) = Ok buff.
Proof.
  unfold bufferToHexPrefixString.
  rewrite hexToBuffer_0x, length_toString_hex, even_length_mod.
  cbn [Nat.eqb]. by rewrite from_hex_toString_hex.
Qed.

(** [normalizeHashString] goes by the low bytes of 64 code units,
    after [0x] or [0X] if the string has 66: it returns a string
    exactly when each of the 64 low bytes is a hexadecimal digit, and
    the string is [0x] followed by these low bytes in lower case. *)
Lemma normalizeHashString_low_bytes (s out : JsString) :
  normalizeHashString (InString s) = Some out
  ↔ ∃ digits,
      (s = digits ∨ s = code_units "0x" ++ digits ∨ s = code_units "0X" ++ digits)
      ∧ hex_digits 64 (low_bytes digits)
      ∧ out = code_units "0x" ++ toLowerCase (low_bytes digits).
Proof.
  split.
  - unfold normalizeHashString.
    destruct (Nat.eqb (length s) 66) eqn:H66; cbn [andb].
    + apply Nat.eqb_eq in H66.
      destruct (has0xPrefix s) eqn:Hpre.
      * apply has0xPrefix_true in Hpre as [digits Hs].
        assert (substring_from 2 s = digits) as ->.
        { by destruct Hs as [-> | ->]. }
        assert (length digits = 2 * 32) as Hlen.
        { destruct Hs as [-> | ->]; rewrite length_app in H66;
            change (2 + length digits = 66) in H66; lia. }
        destruct (Nat.eqb (length (from_hex digits)) 32) eqn:H32;
          cbn [negb]; [|discriminate].
        apply Nat.eqb_eq in H32. intros [= <-].
        pose proof (from_hex_full 32 digits Hlen H32) as Hdigits.
        exists digits. split; [tauto|]. split; [done|].
        by destruct (from_hex_low_digits 32 digits Hdigits) as [_ ->].
      * destruct (Nat.eqb (length s) 64) eqn:H64; [|discriminate].
        apply Nat.eqb_eq in H64. lia.
    + destruct (Nat.eqb (length s) 64) eqn:H64; [|discriminate].
      apply Nat.eqb_eq in H64.
      destruct (Nat.eqb (length (from_hex s)) 32) eqn:H32;
        cbn [negb]; [|discriminate].
      apply Nat.eqb_eq in H32. intros [= <-].
      pose proof (from_hex_full 32 s H64 H32) as Hdigits.
      exists s. split; [tauto|]. split; [done|].
      by destruct (from_hex_low_digits 32 s Hdigits) as [_ ->].
  - intros (digits & Hs & Hdigits & ->).
    destruct (from_hex_low_digits 32 digits Hdigits) as [Hlen Hstr].
    destruct Hdigits as [Hlen64 _]. rewrite length_low_bytes in Hlen64.
    unfold normalizeHashString.
    destruct Hs as [-> | Hs].
    + rewrite Hlen64. cbn [Nat.eqb andb]. rewrite Hlen. cbn [Nat.eqb negb].
      by rewrite Hstr.
    + assert (has0xPrefix s = true) as ->.
      { apply has0xPrefix_true. exists digits. tauto. }
      assert (length s = 66 ∧ substring_from 2 s = digits) as [-> ->].
      { destruct Hs as [-> | ->]; (split; [|reflexivity]);
          rewrite length_app; change (2 + length digits = 66); lia. }
      cbn [Nat.eqb andb]. rewrite Hlen. cbn [Nat.eqb negb].
      by rewrite Hstr.
Qed.

(** What [normalizeHashString] returns on a string of the right shape. *)
Lemma normalizeHashString_shaped (s digits : JsString) :
  hash_shaped s digits →
  normalizeHashString (InString s) = Some (code_units "0x" ++ toLowerCase digits).
Proof.
  intros [Hs Hdigits]. apply normalizeHashString_low_bytes.
  exists digits. rewrite (low_bytes_hex_digits 64 digits Hdigits). done.
Qed.

(** C9. The claim fails on the code: [normalizeHashString] takes the
    64 characters made of a capital I with a dot above (U+0130) and 63
    zeros, which is no hexadecimal string, for the hash of 32 zero
    bytes, where its documentation promises [false] for an input that
    is not a valid hex string. *)
Theorem normalizeHashString_takes_low_bytes :
  normalizeHashString (InString dotted_hash)
  = Some (code_units "0x" ++ replicate 64 48%N)
  ∧ length dotted_hash = 64
  ∧ ¬ (∃ digits, hash_shaped dotted_hash digits).
Proof.
  split; [vm_compute; reflexivity|]. split; [reflexivity|].
  intros (digits & [<- | [Hs | Hs]] & Hlen & Hall).
  - apply Forall_cons in Hall as [Hc _]. vm_compute in Hc. discriminate.
  - discriminate Hs.
  - discriminate Hs.
Qed.

End HexTheorems.

(** ** Numbers as strings *)

Section JsFacts.
Import Js.

Lemma size_le_53 (x : N) : (N.size x <=? 53)%N = true ↔ (x < 2 ^ 53)%N.
Proof.
  rewrite N.leb_le. destruct (decide (x = 0%N)) as [->|Hx]; [cbn; lia|].
  rewrite N.size_log2 by done.
  rewrite (N.log2_lt_pow2 x 53) by lia. lia.
Qed.

Lemma to_double_small (x : N) : (x < 2 ^ 53)%N → to_double x = x.
Proof. intros Hx. unfold to_double. by rewrite (proj2 (size_le_53 x) Hx). Qed.

Lemma to_double_large (x : N) : (2 ^ 53 ≤ x)%N → (2 ^ 53 ≤ to_double x)%N.
Proof.
  intros Hx. unfold to_double.
  destruct (N.size x <=? 53)%N eqn:Hsize; [done|].
  assert (x ≠ 0%N) as Hx0 by lia.
  apply N.leb_gt in Hsize. rewrite N.size_log2 in * by done.
  set (shift := (N.succ (N.log2 x) - 53)%N).
  assert (N.log2 x = 52 + shift)%N as Hlog by lia.
  assert (2 ^ 52 ≤ N.shiftr x shift)%N as Hq.
  { rewrite N.shiftr_div_pow2. apply N.div_le_lower_bound; [lia|].
    rewrite <- N.pow_add_r, (N.add_comm shift), <- Hlog.
    apply N.log2_spec. lia. }
  rewrite N.shiftl_mul_pow2.
  assert (2 ^ 1 ≤ 2 ^ shift)%N as Hpow by (apply N.pow_le_mono_r; lia).
  transitivity (N.shiftr x shift * 2 ^ shift)%N; [nia|].
  apply N.mul_le_mono_r. destruct (_ || _); lia.
Qed.

Lemma to_double_eq_small (c x : N) : (x < 2 ^ 53)%N → to_double c = x → c = x.
Proof.
  intros Hx Hc. destruct (decide (c < 2 ^ 53)%N) as [Hsmall|Hlarge].
  - by rewrite to_double_small in Hc.
  - pose proof (to_double_large c) as H. lia.
Qed.

Lemma shortest_at_rounds (scale x c : N) :
  shortest_at scale x = Some c → to_double c = x.
Proof.
  unfold shortest_at.
  destruct (to_double (x / scale * scale) =? x)%N eqn:Hlo;
    destruct (to_double (x / scale * scale + scale) =? x)%N eqn:Hhi;
    cbn [andb]; repeat case_match; intros [= <-];
    by apply N.eqb_eq.
Qed.

Lemma shortest_from_rounds (j : nat) (x : N) :
  shortest_from j x = x ∨ to_double (shortest_from j x) = x.
Proof.
  induction j as [|j IH]; [by left|].
  cbn [shortest_from].
  destruct (shortest_at _ x) as [c|] eqn:Hc; [|done].
  right. by apply shortest_at_rounds in Hc.
Qed.

Lemma shortest_safe (x : N) : (x < 2 ^ 53)%N → shortest x = x.
Proof.
  intros Hx. unfold shortest.
  destruct (shortest_from_rounds (String.length (pretty x)) x) as [H | H]; [done|].
  by apply to_double_eq_small.
Qed.

(** An integer in the safe range, where every integer is a double,
    prints as its decimal numeral. *)
Lemma Number_toString_safe (z : Z) :
  (Z.abs z < 2 ^ 53)%Z → Number_toString z = pretty z.
Proof.
  intros Hz. destruct z as [|p|p]; [done| |].
  - unfold Number_toString, Number_toString_pos. cbv zeta.
    rewrite shortest_safe by lia.
    rewrite (proj2 (N.ltb_lt _ _)) by lia. done.
  - unfold Number_toString, Number_toString_pos. cbv zeta.
    rewrite shortest_safe by lia.
    rewrite (proj2 (N.ltb_lt _ _)) by lia. done.
Qed.

End JsFacts.

(** ** Memoised enum checks *)

Section EnumFacts.
Import Enum.
Variable objects : ObjRef → EnumObject.

Lemma isEnum_hit r v st c :
  enumCheckFunctions st !! r = Some c → isEnum objects r v st = (call c v, st).
Proof. intros H. funelim (isEnum objects r v st); congruence. Qed.

Lemma isEnum_miss r v st :
  enumCheckFunctions st !! r = None →
  isEnum objects r v st =
    (call (createEnumChecker (objects r)) v,
     set_checker r (createEnumChecker (objects r)) st).
Proof.
  intros H. funelim (isEnum objects r v st); [congruence|].
  apply isEnum_hit. cbn. apply lookup_insert_eq.
Qed.

Lemma getEnumDescription_hit r v st m :
  enumMaps st !! r = Some m →
  getEnumDescription objects r v st =
    (match m !! PNum v with
     | Some enumKey => Js.Number_toString v +:+ " '" +:+ enumKey +:+ "'"
     | None => Js.Number_toString v
     end, st).
Proof.
  intros H. funelim (getEnumDescription objects r v st); [|congruence].
  assert (enumMap = m) as -> by congruence.
  by destruct (m !! PNum value).
Qed.

Lemma getEnumDescription_miss r v st :
  enumMaps st !! r = None →
  (getEnumDescription objects r v st).2 =
    set_enumMap r
      (Map_from ((λ kv : string * PropValue, (kv.2, kv.1)) <$>
         filter (λ kv, typeof_number kv.2 = true) (Object_entries (objects r)))) st.
Proof.
  intros H. funelim (getEnumDescription objects r v st); [congruence|].
  erewrite getEnumDescription_hit; [reflexivity|].
  cbn. apply lookup_insert_eq.
Qed.

(** The checker built from an enum object accepts exactly the numbers
    that are the value of one of its properties. *)
Lemma call_createEnumChecker (o : EnumObject) (v : Z) :
  call (createEnumChecker o) v = true ↔ ∃ key, (key, PNum v) ∈ o.
Proof.
  unfold call, createEnumChecker, Object_values; cbn.
  rewrite bool_decide_eq_true, elem_of_list_to_set, list_elem_of_filter, list_elem_of_fmap.
  split.
  - intros (_ & [key x] & Hx & Hin). cbn in Hx. subst x. eauto.
  - intros (key & Hin). split; [done|]. by exists (key, PNum v).
Qed.

Lemma no_caches_coherent : checkers_coherent objects no_caches.
Proof. intros r c. cbn. by rewrite lookup_empty. Qed.

Lemma isEnum_coherent r v st :
  checkers_coherent objects st → checkers_coherent objects (isEnum objects r v st).2.
Proof.
  intros Hst. destruct (enumCheckFunctions st !! r) as [c|] eqn:Hr.
  - by rewrite (isEnum_hit _ _ _ _ Hr).
  - rewrite (isEnum_miss _ _ _ Hr). intros r' c'. cbn.
    rewrite lookup_insert. case_decide; [naive_solver | apply Hst].
Qed.

Lemma isEnum_answer r v st :
  checkers_coherent objects st →
  (isEnum objects r v st).1 = call (createEnumChecker (objects r)) v.
Proof.
  intros Hst. destruct (enumCheckFunctions st !! r) as [c|] eqn:Hr.
  - rewrite (isEnum_hit _ _ _ _ Hr). cbn. by rewrite (Hst _ _ Hr).
  - by rewrite (isEnum_miss _ _ _ Hr).
Qed.

(** C10. From any state the caches can be in, [isEnum(E, v)] is true
    exactly when [v] is the numeric value of a property of [E]; the
    caches stay coherent, so the answer is the same whether or not the
    checker of [E] was cached, and calling again gives the same
    answer. *)
Theorem isEnum_spec r v st :
  checkers_coherent objects st →
  ((isEnum objects r v st).1 = true ↔ ∃ key, (key, PNum v) ∈ objects r)
  ∧ checkers_coherent objects (isEnum objects r v st).2
  ∧ (isEnum objects r v (isEnum objects r v st).2).1 = (isEnum objects r v st).1
  ∧ (∀ st', checkers_coherent objects st' →
            (isEnum objects r v st').1 = (isEnum objects r v st).1).
Proof.
  intros Hst.
  pose proof (isEnum_coherent r v st Hst) as Hst'.
  split; [|split; [done|split]].
  - rewrite (isEnum_answer _ _ _ Hst). apply call_createEnumChecker.
  - by rewrite (isEnum_answer _ _ _ Hst'), (isEnum_answer _ _ _ Hst).
  - intros st2 Hst2. by rewrite (isEnum_answer _ _ _ Hst2), (isEnum_answer _ _ _ Hst).
Qed.

(** C4 (as amended). The lookup tables are filled lazily in two
    module-level caches: a call of [isEnum] (of [getEnumDescription])
    for an object that has no entry yet stores the table built from
    it; a call for an object that has an entry leaves both caches as
    they are; an entry once stored is never replaced or removed, and
    neither function touches the other's cache. *)
Theorem enum_caches_fill_lazily r v st :
  (is_Some (enumCheckFunctions st !! r) → (isEnum objects r v st).2 = st)
  ∧ (enumCheckFunctions st !! r = None →
     (isEnum objects r v st).2 = set_checker r (createEnumChecker (objects r)) st)
  ∧ (∀ r' c, enumCheckFunctions st !! r' = Some c →
             enumCheckFunctions (isEnum objects r v st).2 !! r' = Some c)
  ∧ enumMaps (isEnum objects r v st).2 = enumMaps st
  ∧ (is_Some (enumMaps st !! r) → (getEnumDescription objects r v st).2 = st)
  ∧ (enumMaps st !! r = None →
     (getEnumDescription objects r v st).2 =
       set_enumMap r
         (Map_from ((λ kv : string * PropValue, (kv.2, kv.1)) <$>
            filter (λ kv, typeof_number kv.2 = true) (Object_entries (objects r)))) st)
  ∧ (∀ r' m, enumMaps st !! r' = Some m →
             enumMaps (getEnumDescription objects r v st).2 !! r' = Some m)
  ∧ enumCheckFunctions (getEnumDescription objects r v st).2 = enumCheckFunctions st.
Proof.
  repeat split.
  - intros [c Hc]. by rewrite (isEnum_hit _ _ _ _ Hc).
  - intros Hr. by rewrite (isEnum_miss _ _ _ Hr).
  - intros r' c Hc. destruct (enumCheckFunctions st !! r) as [c0|] eqn:Hr.
    + by rewrite (isEnum_hit _ _ _ _ Hr).
    + rewrite (isEnum_miss _ _ _ Hr). cbn. rewrite lookup_insert_ne; [done|].
      intros ->. congruence.
  - destruct (enumCheckFunctions st !! r) as [c0|] eqn:Hr.
    + by rewrite (isEnum_hit _ _ _ _ Hr).
    + by rewrite (isEnum_miss _ _ _ Hr).
  - intros [m Hm]. by rewrite (getEnumDescription_hit _ _ _ _ Hm).
  - apply getEnumDescription_miss.
  - intros r' m Hm. destruct (enumMaps st !! r) as [m0|] eqn:Hr.
    + by rewrite (getEnumDescription_hit _ _ _ _ Hr).
    + rewrite (getEnumDescription_miss r v st Hr). cbn.
      rewrite lookup_insert_ne; [done|]. intros ->. congruence.
  - destruct (enumMaps st !! r) as [m0|] eqn:Hr.
    + by rewrite (getEnumDescription_hit _ _ _ _ Hr).
    + by rewrite (getEnumDescription_miss r v st Hr).
Qed.

End EnumFacts.

Section EnumExamples.
Import Enum.

(** The example of the doc comment of [isEnum]: 3 is a [Color]. *)
Example isEnum_Color_3 : (isEnum Color_only Color_ref 3 no_caches).1 = true.
Proof. rewrite isEnum_miss by reflexivity. by vm_compute. Qed.

Example isEnum_Color_4 : (isEnum Color_only Color_ref 4 no_caches).1 = false.
Proof. rewrite isEnum_miss by reflexivity. by vm_compute. Qed.

Example getEnumDescription_Color_5 :
  (getEnumDescription Color_only Color_ref 5
     (getEnumDescription Color_only Color_ref 5 no_caches).2).1 = "5 'Orange'".
Proof.
  rewrite getEnumDescription_miss by reflexivity.
  erewrite getEnumDescription_hit by (cbn; apply lookup_insert_eq).
  by vm_compute.
Qed.

(** C10, on the [Color] enum and the caches as the module is loaded. *)
Lemma isEnum_spec_Color :
  ((isEnum Color_only Color_ref 3 no_caches).1 = true
   ↔ ∃ key, (key, PNum 3) ∈ Color_only Color_ref)
  ∧ checkers_coherent Color_only (isEnum Color_only Color_ref 3 no_caches).2
  ∧ (isEnum Color_only Color_ref 3 (isEnum Color_only Color_ref 3 no_caches).2).1
    = (isEnum Color_only Color_ref 3 no_caches).1
  ∧ (∀ st', checkers_coherent Color_only st' →
            (isEnum Color_only Color_ref 3 st').1
            = (isEnum Color_only Color_ref 3 no_caches).1).
Proof.
  apply (isEnum_spec Color_only Color_ref 3 no_caches).
  intros r c. vm_compute. discriminate.
Defined.

(** C4 as stated fails: the first [isEnum] call for [Color] writes to
    the shared cache [enumCheckFunctions], which does not hold the
    checker of [Color] before the call and holds it after. *)
Lemma isEnum_writes_shared_cache :
  enumCheckFunctions no_caches !! Color_ref = None
  ∧ enumCheckFunctions (isEnum Color_only Color_ref 3 no_caches).2 !! Color_ref
    = Some (createEnumChecker Color)
  ∧ (isEnum Color_only Color_ref 3 no_caches).2 ≠ no_caches.
Proof.
  rewrite isEnum_miss by reflexivity.
  split; [reflexivity|]. split; [apply lookup_insert_eq|].
  intros H. apply (f_equal (λ st, enumCheckFunctions st !! Color_ref)) in H.
  cbn in H. rewrite lookup_insert_eq in H. discriminate.
Qed.

(** C4 as amended, on the [Color] enum and the caches as the module is
    loaded. *)
Lemma enum_caches_fill_lazily_Color :
  (isEnum Color_only Color_ref 3 no_caches).2
  = set_checker Color_ref (createEnumChecker Color) no_caches.
Proof.
  apply (enum_caches_fill_lazily Color_only Color_ref 3 no_caches).
  reflexivity.
Defined.

End EnumExamples.

(** ** Stream computations *)

Section ReaderFacts.
Context {S E : Type}.

Lemma bind_Ok {A B} (m : Reader S E A) (k : A → Reader S E B) s a s' :
  m s = (Ok a, s') → bind m k s = k a s'.
Proof. unfold bind. by intros ->. Qed.

Lemma bind_Err {A B} (m : Reader S E A) (k : A → Reader S E B) s e s' :
  m s = (Err e, s') → bind m k s = (Err e, s').
Proof. unfold bind. by intros ->. Qed.

(** A computation that resolves went through its first step. *)
Lemma bind_Ok_inv {A B} (m : Reader S E A) (k : A → Reader S E B) s b s' :
  bind m k s = (Ok b, s') → ∃ a s1, m s = (Ok a, s1) ∧ k a s1 = (Ok b, s').
Proof.
  unfold bind. destruct (m s) as [[a|e] s1]; [eauto | discriminate].
Qed.

(** A computation that rejects does so in its first step or after it. *)
Lemma bind_Err_inv {A B} (m : Reader S E A) (k : A → Reader S E B) s e s' :
  bind m k s = (Err e, s') →
  m s = (Err e, s') ∨ ∃ a s1, m s = (Ok a, s1) ∧ k a s1 = (Err e, s').
Proof.
  unfold bind. destruct (m s) as [[a|e0] s1]; [eauto | intros [= -> ->]; eauto].
Qed.

Lemma read_many_S {A} (read_one : Reader S E A) (n : nat) (s : S) :
  read_many (Datatypes.S n) read_one s =
    match read_one s with
    | (Err e, s1) => (Err e, s1)
    | (Ok x, s1) =>
        match read_many n read_one s1 with
        | (Err e, s2) => (Err e, s2)
        | (Ok xs, s2) => (Ok (x :: xs), s2)
        end
    end.
Proof.
  cbn [read_many]. unfold bind at 1.
  destruct (read_one s) as [[x|e] s1]; [|done].
  unfold bind, ret. by destruct (read_many n read_one s1) as [[xs|e] s2].
Qed.

Lemma read_many_length {A} (read_one : Reader S E A) (n : nat) (s s' : S) (xs : list A) :
  read_many n read_one s = (Ok xs, s') → length xs = n.
Proof.
  revert s xs. induction n as [|n IH]; intros s xs.
  - cbn. unfold ret. by intros [= <- _].
  - rewrite read_many_S.
    destruct (read_one s) as [[x|e] s1]; [|discriminate].
    destruct (read_many n read_one s1) as [[xs'|e] s2] eqn:Hrest; [|discriminate].
    intros [= <- <-]. cbn. f_equal. by apply (IH s1).
Qed.

(** Reading [a + b] records is reading [a] records and then [b]. *)
Lemma read_many_add {A} (read_one : Reader S E A) (a b : nat) (s : S) :
  read_many (a + b) read_one s =
    match read_many a read_one s with
    | (Err e, s1) => (Err e, s1)
    | (Ok xs, s1) =>
        match read_many b read_one s1 with
        | (Err e, s2) => (Err e, s2)
        | (Ok ys, s2) => (Ok (xs ++ ys)%list, s2)
        end
    end.
Proof.
  revert s. induction a as [|a IH]; intros s.
  - cbn. unfold ret. by destruct (read_many b read_one s) as [[ys|e] s2].
  - cbn [Nat.add]. rewrite !read_many_S.
    destruct (read_one s) as [[x|e] s1]; [|done].
    rewrite IH. destruct (read_many a read_one s1) as [[xs|e] s2]; [|done].
    by destruct (read_many b read_one s2) as [[ys|e] s3].
Qed.

(** Input order: the element at index [i] is the record read after
    [i] records. *)
Lemma read_many_nth {A} (read_one : Reader S E A) (n i : nat) (s s' : S) (xs : list A) :
  read_many n read_one s = (Ok xs, s') → i < n →
  ∃ x si, read_nth i read_one s = (Ok x, si) ∧ xs !! i = Some x.
Proof.
  intros Hxs Hi.
  replace n with (i + Datatypes.S (n - Datatypes.S i)) in Hxs by lia.
  rewrite read_many_add in Hxs.
  destruct (read_many i read_one s) as [[ys|e] s1] eqn:Hys; [|discriminate].
  rewrite read_many_S in Hxs.
  destruct (read_one s1) as [[x|e] s2] eqn:Hx; [|discriminate].
  destruct (read_many _ read_one s2) as [[zs|e] s3]; [|discriminate].
  injection Hxs as <- _.
  exists x, s2. split.
  - unfold read_nth. by rewrite (bind_Ok _ _ _ _ _ Hys).
  - apply read_many_length in Hys as <-. by apply list_lookup_middle.
Qed.

(** The reader rejects where the read of the record at index [k]
    rejects. *)
Lemma read_many_rejects {A} (read_one : Reader S E A) (n k : nat) (s s1 s' : S)
    (xs : list A) (e : E) :
  k < n → read_many k read_one s = (Ok xs, s1) → read_one s1 = (Err e, s') →
  read_many n read_one s = (Err e, s').
Proof.
  intros Hk Hxs Hx.
  replace n with (k + Datatypes.S (n - Datatypes.S k)) by lia.
  by rewrite read_many_add, Hxs, read_many_S, Hx.
Qed.

End ReaderFacts.

(** ** The block list reader *)

Section BlocksFacts.
Import Blocks.
Context {S E BlockHeader Transaction : Type}.
Context {D : Decoders S E BlockHeader Transaction}.

Local Close Scope string_scope.

(** What a group read makes of the two component reads. *)
Lemma read_group_eq (s : S) :
  read_group s =
    match readBlockHeader s with
    | (Err e, s1) => (Err e, s1)
    | (Ok h, s1) =>
        match readTransactions s1 with
        | (Err e, s2) => (Err e, s2)
        | (Ok txs, s2) => (Ok {| header := h; transactions := txs |}, s2)
        end
    end.
Proof.
  unfold read_group, bind, ret.
  destruct (readBlockHeader s) as [[h|e] s1]; [|done].
  by destruct (readTransactions s1) as [[txs|e] s2].
Qed.

Lemma read_groups_S (n : nat) (s : S) :
  read_groups (Datatypes.S n) s =
    match read_group s with
    | (Err e, s1) => (Err e, s1)
    | (Ok b, s1) =>
        match read_groups n s1 with
        | (Err e, s2) => (Err e, s2)
        | (Ok bs, s2) => (Ok (b :: bs), s2)
        end
    end.
Proof. apply read_many_S. Qed.

(** The loop invariant of [readBlocks]: with the blocks [done] read so
    far in the first slots and [todo] holes after them, the loop fills
    the holes with the next [todo] groups, or rejects as their reader
    does. *)
Lemma readBlocks_for_read_groups (todo : nat)
    (done : list (Block BlockHeader Transaction)) (s : S) :
  readBlocks_for todo (length done) ((Some <$> done) ++ replicate todo None) s =
    match read_groups todo s with
    | (Ok bs, s') => (Ok (Some <$> (done ++ bs)), s')
    | (Err e, s') => (Err e, s')
    end.
Proof.
  revert done s. induction todo as [|todo IH]; intros done s.
  - cbn. unfold ret. by rewrite !app_nil_r.
  - rewrite read_groups_S, read_group_eq.
    cbn [readBlocks_for]. unfold bind at 1.
    destruct (readBlockHeader s) as [[h|e] s1]; [|done].
    unfold bind at 1.
    destruct (readTransactions s1) as [[txs|e] s2]; [|done].
    cbn [replicate].
    rewrite insert_app_r_alt by (rewrite length_fmap; lia).
    rewrite length_fmap, Nat.sub_diag. cbn [insert list_insert].
    specialize (IH (done ++ [{| header := h; transactions := txs |}]) s2).
    rewrite length_app, fmap_app in IH. cbn in IH.
    rewrite Nat.add_1_r, <- app_assoc in IH. cbn in IH. rewrite IH.
    destruct (read_groups todo s2) as [[bs|e] s3]; [|done].
    by rewrite <- app_assoc.
Qed.

(** [readBlocks] in terms of the wire format. *)
Lemma readBlocks_eq (s : S) :
  readBlocks s =
    match readUInt32BE s with
    | (Err e, s1) => (Err e, s1)
    | (Ok n, s1) =>
        if bool_decide (0 ≤ n ≤ 4294967295)%Z then
          match read_groups (Z.to_nat n) s1 with
          | (Ok bs, s') => (Ok (Some <$> bs), s')
          | (Err e, s') => (Err e, s')
          end
        else (Err (RangeError n), s1)
    end.
Proof.
  unfold readBlocks, bind at 1.
  destruct (readUInt32BE s) as [[n|e] s1]; [|done].
  unfold new_Array, bind at 1. case_bool_decide; [|done].
  unfold ret at 1.
  apply (readBlocks_for_read_groups (Z.to_nat n) [] s1).
Qed.

Lemma read_groups_length (n : nat) (s s' : S) (bs : list (Block BlockHeader Transaction)) :
  read_groups n s = (Ok bs, s') → length bs = n.
Proof. apply read_many_length. Qed.

(** The block in slot [i] is the group read after [i] groups. *)
Lemma read_groups_nth (n i : nat) (s s' : S) (bs : list (Block BlockHeader Transaction)) :
  read_groups n s = (Ok bs, s') → i < n →
  ∃ b si, nth_group i s = (Ok b, si) ∧ bs !! i = Some b.
Proof. apply read_many_nth. Qed.

(** The groups reader rejects where the header read, or the
    transaction-list read, of the group at index [k] rejects. *)
Lemma read_groups_header_rejects (n k : nat) (s s1 s' : S)
    (bs : list (Block BlockHeader Transaction)) (e : E) :
  k < n → read_groups k s = (Ok bs, s1) → readBlockHeader s1 = (Err e, s') →
  read_groups n s = (Err e, s').
Proof.
  intros Hk Hgroups Hheader.
  apply (read_many_rejects _ n k s s1 s' bs e Hk Hgroups).
  by rewrite read_group_eq, Hheader.
Qed.

Lemma read_groups_transactions_reject (n k : nat) (s s1 s2 s' : S)
    (bs : list (Block BlockHeader Transaction))
    (h : BlockHeader) (e : E) :
  k < n → read_groups k s = (Ok bs, s1) →
  readBlockHeader s1 = (Ok h, s2) → readTransactions s2 = (Err e, s') →
  read_groups n s = (Err e, s').
Proof.
  intros Hk Hgroups Hheader Htxs.
  apply (read_many_rejects _ n k s s1 s' bs e Hk Hgroups).
  by rewrite read_group_eq, Hheader, Htxs.
Qed.

Lemma readBlocks_groups_reject (s s1 s' : S) (n : Z) (e : E) :
  readUInt32BE s = (Ok n, s1) → (0 ≤ n ≤ 4294967295)%Z →
  read_groups (Z.to_nat n) s1 = (Err e, s') →
  readBlocks s = (Err e, s').
Proof.
  intros Hcount Hn Hgroups.
  by rewrite readBlocks_eq, Hcount, bool_decide_eq_true_2, Hgroups.
Qed.

End BlocksFacts.

Section BlocksTheorems.
Import Blocks.
Context {S E BlockHeader Transaction : Type}.
Context {D : Decoders S E BlockHeader Transaction}.

Local Close Scope string_scope.

(** C1. [readBlocks] is fail-fast: when the block-count read rejects,
    or when, after the count and [k] whole groups were read, the next
    header read or the next transaction-list read rejects, the whole
    call rejects with that error; the outcome is the error alone, with
    no array of the blocks read so far. *)
Theorem readBlocks_fail_fast (s : S) (e : E) (s' : S) :
  (readUInt32BE s = (Err e, s') → readBlocks s = (Err e, s'))
  ∧ (∀ n s1 k bs s2,
       readUInt32BE s = (Ok n, s1) → (0 ≤ n ≤ 4294967295)%Z →
       k < Z.to_nat n → read_groups k s1 = (Ok bs, s2) →
       readBlockHeader s2 = (Err e, s') →
       readBlocks s = (Err e, s'))
  ∧ (∀ n s1 k bs s2 h s3,
       readUInt32BE s = (Ok n, s1) → (0 ≤ n ≤ 4294967295)%Z →
       k < Z.to_nat n → read_groups k s1 = (Ok bs, s2) →
       readBlockHeader s2 = (Ok h, s3) → readTransactions s3 = (Err e, s') →
       readBlocks s = (Err e, s')).
Proof.
  split; [|split].
  - intros Hcount. by rewrite readBlocks_eq, Hcount.
  - intros n s1 k bs s2 Hcount Hn Hk Hgroups Hheader.
    apply (readBlocks_groups_reject s s1 s' n e Hcount Hn).
    by apply (read_groups_header_rejects _ k s1 s2 s' bs).
  - intros n s1 k bs s2 h s3 Hcount Hn Hk Hgroups Hheader Htxs.
    apply (readBlocks_groups_reject s s1 s' n e Hcount Hn).
    by apply (read_groups_transactions_reject _ k s1 s2 s3 s' bs h).
Qed.

(** C2. When [readBlocks] resolves, the array has as many elements as
    the count read first, none of them a hole; it lists, in input
    order, the blocks of that many header-and-transaction-list groups
    read one after the other, so that element [i] is the block of the
    group at index [i], holding the header and the transaction list as
    the two component reads returned them. *)
Theorem readBlocks_in_order (s : S) (blocks : JsArray (Block BlockHeader Transaction)) (s' : S) :
  readBlocks s = (Ok blocks, s') →
  ∃ n s1 bs,
    readUInt32BE s = (Ok n, s1)
    ∧ (0 ≤ n ≤ 4294967295)%Z
    ∧ read_groups (Z.to_nat n) s1 = (Ok bs, s')
    ∧ blocks = Some <$> bs
    ∧ length blocks = Z.to_nat n
    ∧ ∀ i, i < Z.to_nat n →
        ∃ b si, nth_group i s1 = (Ok b, si) ∧ blocks !! i = Some (Some b).
Proof.
  rewrite readBlocks_eq.
  destruct (readUInt32BE s) as [[n|e] s1]; [|discriminate].
  case_bool_decide as Hn; [|discriminate].
  destruct (read_groups (Z.to_nat n) s1) as [[bs|e] s2] eqn:Hbs; [|discriminate].
  intros [= <- <-]. exists n, s1, bs.
  repeat (split; [done|]). split.
  - rewrite length_fmap. by eapply read_groups_length.
  - intros i Hi.
    destruct (read_groups_nth _ _ _ _ _ Hbs Hi) as (b & si & Hb & Hlookup).
    exists b, si. split; [done|]. by rewrite list_lookup_fmap, Hlookup.
Qed.

(** C3. When the block count read is 0, [readBlocks] resolves with the
    empty array and leaves the stream in the state the count read left
    it in: the cursor is past the count field and nothing else was
    read. *)
Theorem readBlocks_count_zero (s s1 : S) :
  readUInt32BE s = (Ok 0%Z, s1) → readBlocks s = (Ok [], s1).
Proof.
  intros Hcount. by rewrite readBlocks_eq, Hcount.
Qed.

End BlocksTheorems.

(** ** The Byte Cursor *)

Section CursorFacts.
Import Cursor.

Local Close Scope string_scope.

(** Awaiting input moves bytes from the chunks to come into the buffer
    and changes nothing else; it gives up only at end of stream. *)
Lemma await_bytes_spec (n : nat) (buf : list byte) (inc : list (list byte)) :
  (await_bytes n buf inc).1 ++ concat (await_bytes n buf inc).2 = buf ++ concat inc
  ∧ (length (await_bytes n buf inc).1 < n → (await_bytes n buf inc).2 = []).
Proof.
  revert buf. induction inc as [|chunk later IH]; intros buf; [done|].
  cbn [await_bytes]. destruct (n <=? length buf) eqn:Hn.
  - apply Nat.leb_le in Hn. cbn [fst snd]. split; [done | lia].
  - destruct (IH (buf ++ chunk)) as [IH1 IH2].
    split; [|done]. rewrite IH1. cbn [concat]. by rewrite app_assoc.
Qed.

(** [readFixed] when the stream holds enough bytes. *)
Lemma readFixed_enough (n : nat) (c : ByteCursor) :
  n ≤ length (unread c) →
  ∃ c', readFixed n c = (Ok (take n (unread c)), c')
        ∧ position c' = position c + n
        ∧ unread c' = drop n (unread c).
Proof.
  intros Hn. unfold readFixed, unread in *.
  destruct (await_bytes_spec n (buffered c) (incoming c)) as [Hsame Hend].
  destruct (await_bytes n (buffered c) (incoming c)) as [buf inc].
  cbn [fst snd] in *.
  assert (n ≤ length buf) as Hbuf.
  { destruct (decide (n ≤ length buf)) as [|Hlt]; [done|].
    rewrite Hend in Hsame by lia. cbn in Hsame. rewrite app_nil_r in Hsame.
    subst buf. lia. }
  rewrite (proj2 (Nat.leb_le _ _) Hbuf), <- Hsame.
  eexists. split; [|split]; [by rewrite take_app_le | done |].
  cbn. by rewrite drop_app_le.
Qed.

(** [readFixed] when the stream ends before [n] bytes. *)
Lemma readFixed_short (n : nat) (c : ByteCursor) :
  length (unread c) < n →
  ∃ c', readFixed n c = (Err TruncatedStream, c')
        ∧ position c' = position c
        ∧ unread c' = unread c
        ∧ endOfStream c' = true.
Proof.
  intros Hn. unfold readFixed, unread in *.
  destruct (await_bytes_spec n (buffered c) (incoming c)) as [Hsame Hend].
  destruct (await_bytes n (buffered c) (incoming c)) as [buf inc].
  cbn [fst snd] in *.
  assert (length buf < n) as Hbuf.
  { rewrite <- Hsame, length_app in Hn. lia. }
  rewrite (proj2 (Nat.leb_gt _ _) Hbuf).
  eexists. split; [done|]. split; [done|]. split; [by cbn|].
  unfold endOfStream. cbn. by rewrite (Hend Hbuf).
Qed.

Lemma readUInt_enough (w : UIntWidth) (c : ByteCursor) :
  width_bytes w ≤ length (unread c) →
  ∃ c', readUInt w c = (Ok (big_endian (take (width_bytes w) (unread c))), c')
        ∧ position c' = position c + width_bytes w
        ∧ unread c' = drop (width_bytes w) (unread c).
Proof.
  intros Hw. destruct (readFixed_enough _ _ Hw) as (c' & Hread & Hpos & Hrest).
  exists c'. unfold readUInt. by rewrite (bind_Ok _ _ _ _ _ Hread).
Qed.

Lemma readUInt_short (w : UIntWidth) (c : ByteCursor) :
  length (unread c) < width_bytes w →
  ∃ c', readUInt w c = (Err TruncatedStream, c')
        ∧ position c' = position c
        ∧ unread c' = unread c
        ∧ endOfStream c' = true.
Proof.
  intros Hw. destruct (readFixed_short _ _ Hw) as (c' & Hread & Hpos & Hrest).
  exists c'. unfold readUInt. by rewrite (bind_Err _ _ _ _ _ Hread).
Qed.

Section Bounded.
Variable maxLength : Z.

(** The four ways a [readLengthPrefixed] can go. *)
Lemma readLengthPrefixed_no_prefix (w : UIntWidth) (c : ByteCursor) :
  length (unread c) < width_bytes w →
  ∃ c', readLengthPrefixed maxLength w c = (Err TruncatedStream, c')
        ∧ position c' = position c
        ∧ unread c' = unread c
        ∧ endOfStream c' = true.
Proof.
  intros Hw. destruct (readUInt_short _ _ Hw) as (c' & Hread & Hpos & Hrest).
  exists c'. unfold readLengthPrefixed. by rewrite (bind_Err _ _ _ _ _ Hread).
Qed.

Lemma readLengthPrefixed_too_long (w : UIntWidth) (c : ByteCursor) :
  width_bytes w ≤ length (unread c) → (maxLength < declared w c)%Z →
  ∃ c', readLengthPrefixed maxLength w c = (Err (MalformedLength (declared w c)), c')
        ∧ position c' = position c + width_bytes w
        ∧ unread c' = drop (width_bytes w) (unread c).
Proof.
  intros Hw Hlen. destruct (readUInt_enough _ _ Hw) as (c' & Hread & Hpos & Hrest).
  exists c'. unfold readLengthPrefixed. rewrite (bind_Ok _ _ _ _ _ Hread).
  fold (declared w c). by rewrite bool_decide_eq_true_2.
Qed.

Lemma readLengthPrefixed_short (w : UIntWidth) (c : ByteCursor) :
  width_bytes w ≤ length (unread c) → (declared w c ≤ maxLength)%Z →
  length (unread c) < width_bytes w + Z.to_nat (declared w c) →
  ∃ c', readLengthPrefixed maxLength w c = (Err TruncatedStream, c')
        ∧ position c' = position c + width_bytes w
        ∧ unread c' = drop (width_bytes w) (unread c)
        ∧ endOfStream c' = true.
Proof.
  intros Hw Hlen Hshort.
  destruct (readUInt_enough _ _ Hw) as (c1 & Hread & Hpos & Hrest).
  destruct (readFixed_short (Z.to_nat (declared w c)) c1)
    as (c' & Hbody & Hpos' & Hrest' & Hend).
  { rewrite Hrest, length_drop. lia. }
  exists c'. unfold readLengthPrefixed. rewrite (bind_Ok _ _ _ _ _ Hread).
  fold (declared w c). rewrite bool_decide_eq_false_2 by lia.
  split; [done|]. split; [congruence|]. split; [congruence | done].
Qed.

Lemma readLengthPrefixed_enough (w : UIntWidth) (c : ByteCursor) :
  (declared w c ≤ maxLength)%Z →
  width_bytes w + Z.to_nat (declared w c) ≤ length (unread c) →
  ∃ c', readLengthPrefixed maxLength w c
        = (Ok (take (Z.to_nat (declared w c)) (drop (width_bytes w) (unread c))), c')
        ∧ position c' = position c + (width_bytes w + Z.to_nat (declared w c))
        ∧ unread c' = drop (width_bytes w + Z.to_nat (declared w c)) (unread c).
Proof.
  intros Hlen Henough.
  destruct (readUInt_enough w c) as (c1 & Hread & Hpos & Hrest); [lia|].
  destruct (readFixed_enough (Z.to_nat (declared w c)) c1) as (c' & Hbody & Hpos' & Hrest').
  { rewrite Hrest, length_drop. lia. }
  exists c'. unfold readLengthPrefixed. rewrite (bind_Ok _ _ _ _ _ Hread).
  fold (declared w c). rewrite bool_decide_eq_false_2 by lia.
  rewrite Hbody, Hrest. split; [done|]. split; [lia|].
  by rewrite Hrest', Hrest, drop_drop.
Qed.

End Bounded.

End CursorFacts.

Section CursorTheorems.
Import Cursor.
Variable maxLength : Z.

Local Close Scope string_scope.

(** Every operation ends in one of three ways; in each the cursor has
    moved by the number [j] of bytes taken off the stream. *)
Lemma perform_cases (op : CursorOp) (c : ByteCursor) :
  ∃ r c' j,
    perform maxLength op c = (r, c')
    ∧ j ≤ length (unread c)
    ∧ position c' = position c + j
    ∧ unread c' = drop j (unread c)
    ∧ ((r = Ok (value_read op (take (required op c) (unread c)))
        ∧ j = required op c
        ∧ ∀ w, op = DoReadLengthPrefixed w → (declared w c ≤ maxLength)%Z)
       ∨ (r = Err TruncatedStream ∧ length (unread c) < required op c
          ∧ endOfStream c' = true)
       ∨ (∃ w, op = DoReadLengthPrefixed w
               ∧ r = Err (MalformedLength (declared w c))
               ∧ width_bytes w ≤ length (unread c)
               ∧ (maxLength < declared w c)%Z)).
Proof.
  destruct op as [w|n|w]; cbn [perform required value_read].
  - destruct (decide (width_bytes w ≤ length (unread c))) as [Hw|Hw].
    + destruct (readUInt_enough w c Hw) as (c' & Hread & Hpos & Hrest).
      eexists _, c', (width_bytes w).
      rewrite (bind_Ok _ _ _ _ _ Hread). unfold ret.
      repeat split; [done | done | done | left; by repeat split].
    + destruct (readUInt_short w c) as (c' & Hread & Hpos & Hrest & Hend); [lia|].
      eexists _, c', 0.
      rewrite (bind_Err _ _ _ _ _ Hread).
      repeat split; [lia | lia | done | right; left; repeat split; [lia | done]].
  - destruct (decide (n ≤ length (unread c))) as [Hn|Hn].
    + destruct (readFixed_enough n c Hn) as (c' & Hread & Hpos & Hrest).
      eexists _, c', n.
      rewrite (bind_Ok _ _ _ _ _ Hread). unfold ret.
      repeat split; [done | done | done | left; by repeat split].
    + destruct (readFixed_short n c) as (c' & Hread & Hpos & Hrest & Hend); [lia|].
      eexists _, c', 0.
      rewrite (bind_Err _ _ _ _ _ Hread).
      repeat split; [lia | lia | done | right; left; repeat split; [lia | done]].
  - destruct (decide (width_bytes w ≤ length (unread c))) as [Hw|Hw].
    2:{ destruct (readLengthPrefixed_no_prefix maxLength w c)
          as (c' & Hread & Hpos & Hrest & Hend); [lia|].
        eexists _, c', 0.
        rewrite (bind_Err _ _ _ _ _ Hread).
        repeat split; [lia | lia | done | right; left; repeat split; [lia | done]]. }
    destruct (decide (maxLength < declared w c)%Z) as [Hlong|Hlong].
    { destruct (readLengthPrefixed_too_long maxLength w c Hw Hlong)
        as (c' & Hread & Hpos & Hrest).
      eexists _, c', (width_bytes w).
      rewrite (bind_Err _ _ _ _ _ Hread).
      repeat split; [done | done | done | right; right; eauto 10]. }
    destruct (decide (width_bytes w + Z.to_nat (declared w c) ≤ length (unread c)))
      as [Hbody|Hbody].
    + destruct (readLengthPrefixed_enough maxLength w c)
        as (c' & Hread & Hpos & Hrest); [lia | done |].
      eexists _, c', _.
      rewrite (bind_Ok _ _ _ _ _ Hread). unfold ret.
      repeat split; [done | done | done |].
      left. split; [by rewrite take_drop_commute|]. split; [done|].
      intros w' [= <-]. lia.
    + destruct (readLengthPrefixed_short maxLength w c)
        as (c' & Hread & Hpos & Hrest & Hend); [done | lia | lia |].
      eexists _, c', (width_bytes w).
      rewrite (bind_Err _ _ _ _ _ Hread).
      repeat split; [done | done | done | right; left; repeat split; [lia | done]].
Qed.

(** A stream one byte short of what a read uses up: the read asks
    for more than is left, and finds the same length declared if the
    prefix is still whole. *)
Lemma required_truncated (op : CursorOp) (c c2 : ByteCursor) bytes last :
  unread c = bytes ++ [last] → unread c2 = bytes →
  required op c = S (length bytes) →
  length bytes < required op c2
  ∧ ∀ w, op = DoReadLengthPrefixed w → width_bytes w ≤ length bytes →
         declared w c2 = declared w c.
Proof.
  intros Hc Hc2 Hreq.
  assert (∀ w, width_bytes w ≤ length bytes → declared w c2 = declared w c) as Hdecl.
  { intros w Hw. unfold declared. by rewrite Hc, Hc2, take_app_le. }
  split; [|by eauto].
  destruct op as [w|n|w]; cbn [required] in *; [lia | lia |].
  destruct (decide (width_bytes w ≤ length bytes)) as [Hw|Hw]; [|lia].
  rewrite (Hdecl w Hw). lia.
Qed.

(** C6. A read primitive that returns has taken exactly the bytes it
    asked for off the stream, and its value is made of exactly those
    bytes; one that fails fails with [TruncatedStream], at end of
    stream with fewer bytes left than it asked for, or with
    [MalformedLength]; with fewer bytes left than it asks for, a read
    fails; so a read that succeeds on a stream and uses it up fails
    with [TruncatedStream] on that stream less its last byte. *)
Theorem read_exact_or_fail (op : CursorOp) (c : ByteCursor) :
  (∀ v c', perform maxLength op c = (Ok v, c') →
     required op c ≤ length (unread c)
     ∧ v = value_read op (take (required op c) (unread c))
     ∧ length (take (required op c) (unread c)) = required op c
     ∧ position c' = position c + required op c
     ∧ unread c' = drop (required op c) (unread c))
  ∧ (∀ e c', perform maxLength op c = (Err e, c') →
       (e = TruncatedStream ∧ length (unread c) < required op c
        ∧ endOfStream c' = true)
       ∨ (∃ w, op = DoReadLengthPrefixed w
               ∧ e = MalformedLength (declared w c)
               ∧ (maxLength < declared w c)%Z))
  ∧ (length (unread c) < required op c →
     ∃ e c', perform maxLength op c = (Err e, c')
             ∧ (e = TruncatedStream
                ∨ ∃ w, op = DoReadLengthPrefixed w ∧ e = MalformedLength (declared w c)))
  ∧ (∀ v c' bytes last c2,
       perform maxLength op c = (Ok v, c') →
       unread c = bytes ++ [last] → unread c' = [] →
       unread c2 = bytes →
       ∃ c2', perform maxLength op c2 = (Err TruncatedStream, c2')).
Proof.
  split; [|split; [|split]].
  - intros v c' Hperform.
    destruct (perform_cases op c) as (r & c1 & j & Hr & Hj & Hpos & Hrest & Hcase).
    rewrite Hperform in Hr. injection Hr as <- <-.
    destruct Hcase as [([= ->] & -> & _) | [([=] & _) | (w & _ & [=] & _)]].
    repeat split; [done | by rewrite length_take_le | done | done].
  - intros e c' Hperform.
    destruct (perform_cases op c) as (r & c1 & j & Hr & Hj & Hpos & Hrest & Hcase).
    rewrite Hperform in Hr. injection Hr as <- <-.
    destruct Hcase
      as [([=] & _) | [([= ->] & Hshort & Hend) | (w & -> & [= ->] & _ & Hlong)]];
      [left | right]; eauto.
  - intros Hshort.
    destruct (perform_cases op c) as (r & c' & j & Hr & Hj & _ & _ & Hcase).
    destruct Hcase as [(_ & -> & _) | [(-> & _) | (w & -> & -> & _)]]; [lia | |].
    + exists TruncatedStream, c'. eauto.
    + exists (MalformedLength (declared w c)), c'. eauto.
  - intros v c' bytes last c2 Hperform Hbytes Hall Hc2.
    destruct (perform_cases op c) as (r & c1 & j & Hr & Hj & _ & Hrest & Hcase).
    rewrite Hperform in Hr. injection Hr as <- <-.
    destruct Hcase as [(_ & -> & Hbound) | [([=] & _) | (w & _ & [=] & _)]].
    assert (required op c = S (length bytes)) as Hexact.
    { rewrite Hall in Hrest. symmetry in Hrest.
      apply (f_equal length) in Hrest. rewrite length_drop in Hrest.
      rewrite Hbytes, length_app in Hj, Hrest. cbn in Hj, Hrest. lia. }
    destruct (required_truncated op c c2 bytes last Hbytes Hc2 Hexact) as [Hmore Hdecl].
    destruct (perform_cases op c2) as (r & c2' & j & Hr & Hj2 & _ & _ & Hcase).
    exists c2'. rewrite Hr. f_equal. rewrite Hc2 in Hj2, Hcase.
    destruct Hcase as [(_ & -> & _) | [(-> & _) | (w & -> & _ & Hw & Hlong)]];
      [lia | done |].
    rewrite (Hdecl w eq_refl Hw) in Hlong.
    specialize (Hbound w eq_refl). lia.
Qed.

(** Whatever the operation and its outcome, the cursor moves forward
    by the number of bytes that left the stream. *)
Lemma step_consumes (op : CursorOp) (c : ByteCursor) :
  ∃ j, j ≤ length (unread c)
       ∧ position (step maxLength c op) = position c + j
       ∧ unread (step maxLength c op) = drop j (unread c).
Proof.
  unfold step.
  destruct (perform_cases op c) as (r & c' & j & -> & Hj & Hpos & Hrest & _).
  by exists j.
Qed.

(** C7. Along any sequence of operations on a cursor, failing ones
    included, the position never decreases from one operation to the
    next, and after each of them it has advanced by exactly the number
    of bytes consumed: the bytes of the stream are those consumed so
    far followed by those still unread. For a cursor opened on a
    stream, the position is the number of bytes consumed. *)
Theorem position_tracks_consumption (ops : list CursorOp) (c : ByteCursor) :
  (∀ i c1 c2,
     (c :: steps maxLength c ops) !! i = Some c1 →
     (c :: steps maxLength c ops) !! S i = Some c2 →
     position c1 ≤ position c2)
  ∧ (∀ c', c' ∈ c :: steps maxLength c ops →
       ∃ consumed,
         unread c = consumed ++ unread c'
         ∧ position c' = position c + length consumed)
  ∧ (∀ chunks c',
       c = open chunks → c' ∈ c :: steps maxLength c ops →
       ∃ consumed,
         concat chunks = consumed ++ unread c'
         ∧ position c' = length consumed).
Proof.
  assert (Hstep : ∀ op c0, position c0 ≤ position (step maxLength c0 op)).
  { intros op c0. destruct (step_consumes op c0) as (j & _ & -> & _). lia. }
  assert (Hmono : ∀ ops c0 i c1 c2,
     (c0 :: steps maxLength c0 ops) !! i = Some c1 →
     (c0 :: steps maxLength c0 ops) !! S i = Some c2 →
     position c1 ≤ position c2).
  { clear ops c. intros ops. induction ops as [|op ops IH]; intros c0 i c1 c2.
    - destruct i; [|done]. done.
    - cbn [steps]. destruct i as [|i].
      + cbn. intros [= <-] [= <-]. apply Hstep.
      + intros H1 H2. exact (IH (step maxLength c0 op) i c1 c2 H1 H2). }
  assert (Hcons : ∀ ops c0 c',
     c' ∈ c0 :: steps maxLength c0 ops →
     ∃ consumed, unread c0 = consumed ++ unread c'
                 ∧ position c' = position c0 + length consumed).
  { clear ops c Hmono. intros ops. induction ops as [|op ops IH]; intros c0 c'.
    - intros ->%list_elem_of_singleton. exists []. split; [done | cbn; lia].
    - cbn [steps]. intros [-> | Hin]%elem_of_cons.
      { exists []. split; [done | cbn; lia]. }
      destruct (IH _ _ Hin) as (consumed & Hunread & Hpos).
      destruct (step_consumes op c0) as (j & Hj & Hpos0 & Hrest).
      exists (take j (unread c0) ++ consumed). split.
      + rewrite <- app_assoc, <- Hunread, Hrest. by rewrite take_drop.
      + rewrite length_app, length_take_le by done. lia. }
  split; [apply Hmono|]. split; [apply Hcons|].
  intros chunks c' -> Hin.
  destruct (Hcons _ _ _ Hin) as (consumed & Hunread & Hpos).
  exists consumed. split; [exact Hunread | exact Hpos].
Qed.

End CursorTheorems.

(** ** The block count is not bounded *)

Section BlockCount.
Import Blocks Cursor.
Context {S E BlockHeader Transaction : Type}.
Context {D : Decoders S E BlockHeader Transaction}.

Local Close Scope string_scope.

(** C5 (as amended). [readBlocks] checks the block count against no
    bound: whatever count the 4-byte read returns, it allocates that
    many slots and goes on to read that many groups, rejecting only
    where one of those reads rejects. A length read by
    [readLengthPrefixed] is checked: when it exceeds the bound the read
    fails with [MalformedLength], having consumed the prefix only. *)
Theorem block_count_not_bounded (s s1 : S) (n : Z) (maxLength : Z) (w : UIntWidth)
    (c : ByteCursor) :
  (readUInt32BE s = (Ok n, s1) → (0 ≤ n ≤ 4294967295)%Z →
   readBlocks s =
     match read_groups (Z.to_nat n) s1 with
     | (Ok bs, s') => (Ok (Some <$> bs), s')
     | (Err e, s') => (Err e, s')
     end)
  ∧ (width_bytes w ≤ length (unread c) → (maxLength < declared w c)%Z →
     ∃ c', readLengthPrefixed maxLength w c = (Err (MalformedLength (declared w c)), c')
           ∧ position c' = position c + width_bytes w
           ∧ unread c' = drop (width_bytes w) (unread c)).
Proof.
  split.
  - intros Hcount Hn. by rewrite readBlocks_eq, Hcount, bool_decide_eq_true_2.
  - apply readLengthPrefixed_too_long.
Qed.

End BlockCount.

(** ** The theorems on concrete streams *)

Section Streams.
Import Blocks Cursor.

Local Close Scope string_scope.

(** The two-block stream decodes to [[A; B]], however it is chunked. *)
Example small_readBlocks_two_blocks :
  small_readBlocks (open [two_blocks]) = (Ok [Some block_A; Some block_B], drained 45)
  ∧ small_readBlocks (open two_blocks_chunked)
    = (Ok [Some block_A; Some block_B], drained 45).
Proof. split; vm_compute; reflexivity. Qed.

(** A stream that ends inside the block count, one that ends inside
    the transaction list of block A, and one whose only transaction
    declares a length of 256: the call fails as the read at hand does. *)
Example small_readBlocks_rejects :
  small_readBlocks (open [[x00; x00]])
  = (Err TruncatedStream, {| position := 0; buffered := [x00; x00]; incoming := [] |})
  ∧ small_readBlocks (open [take 24 two_blocks]) = (Err TruncatedStream, drained 24)
  ∧ small_readBlocks (open [[x00; x00; x00; x01] ++ header_A ++ [x00; x00; x00; x01; x01; x00]])
    = (Err (MalformedLength 256), drained 23).
Proof. repeat split; vm_compute; reflexivity. Qed.

(** On a Byte Cursor, a block count of zero moves the position by the
    four bytes of the count field and leaves the bytes after them
    unread, whatever the header and transaction-list decoders are. *)
Lemma readBlocks_count_zero_cursor {BlockHeader Transaction}
    (rh : Reader ByteCursor Thrown BlockHeader)
    (rt : Reader ByteCursor Thrown (list Transaction)) (c : ByteCursor) :
  4 ≤ length (unread c) → big_endian (take 4 (unread c)) = 0%Z →
  ∃ c', readBlocks (D := cursor_decoders rh rt) c = (Ok [], c')
        ∧ position c' = position c + 4
        ∧ unread c' = drop 4 (unread c).
Proof.
  intros Hlen Hzero.
  destruct (readUInt_enough W4 c Hlen) as (c' & Hread & Hpos & Hrest).
  exists c'. rewrite readBlocks_eq. cbn [readUInt32BE cursor_decoders].
  rewrite Hread. cbn [width_bytes]. by rewrite Hzero.
Qed.

(** C1, on the two-block stream cut inside the header of block B:
    the count and block A are read, the header read of block B fails,
    and so does the call. *)
Lemma readBlocks_fail_fast_cut_header :
  ∃ c', small_readBlocks (open [take 30 two_blocks]) = (Err TruncatedStream, c').
Proof.
  eexists.
  eapply (proj1 (proj2 (readBlocks_fail_fast (D:=small_decoders) _ _ _)))
    with (k := 1).
  - vm_compute. reflexivity.
  - lia.
  - vm_compute. lia.
  - vm_compute. reflexivity.
  - vm_compute. reflexivity.
Defined.

(** C2, on the two-block stream delivered in chunks. *)
Lemma readBlocks_in_order_two_blocks :
  ∃ n s1 bs,
    readUInt W4 (open two_blocks_chunked) = (Ok n, s1)
    ∧ (0 ≤ n ≤ 4294967295)%Z
    ∧ read_groups (D:=small_decoders) (Z.to_nat n) s1 = (Ok bs, drained 45)
    ∧ [Some block_A; Some block_B] = Some <$> bs
    ∧ length [Some block_A; Some block_B] = Z.to_nat n
    ∧ ∀ i, i < Z.to_nat n →
        ∃ b si, nth_group (D:=small_decoders) i s1 = (Ok b, si)
                ∧ [Some block_A; Some block_B] !! i = Some (Some b).
Proof.
  apply (readBlocks_in_order (D:=small_decoders) (open two_blocks_chunked)).
  vm_compute. reflexivity.
Defined.

(** C3, on a count of zero with more bytes behind it: the cursor stops
    after the four bytes of the count, the rest is left unread. *)
Lemma readBlocks_count_zero_no_blocks :
  small_readBlocks (open [no_blocks])
  = (Ok [], {| position := 4; buffered := [xde; xad]; incoming := [] |}).
Proof.
  apply (readBlocks_count_zero (D:=small_decoders)).
  vm_compute. reflexivity.
Defined.

(** C5 as stated fails: the largest count, far above the bound of 255
    that the small protocol puts on a declared length, and nothing
    behind it. [readBlocks] does not reject the count: it goes on to
    the first header, and fails there for want of bytes. *)
Lemma readBlocks_huge_count :
  readUInt W4 (open [huge_count]) = (Ok 4294967295%Z, drained 4)
  ∧ (255 < 4294967295)%Z
  ∧ small_readBlocks (open [huge_count]) = (Err TruncatedStream, drained 4).
Proof.
  assert (Hcount : readUInt W4 (open [huge_count]) = (Ok 4294967295%Z, drained 4)).
  { vm_compute. reflexivity. }
  split; [exact Hcount|]. split; [lia|].
  apply (readBlocks_groups_reject (D:=small_decoders) _ _ _ _ _ Hcount); [lia|].
  apply (read_groups_header_rejects (D:=small_decoders) _ 0 _ (drained 4) _ []);
    [lia | reflexivity |].
  vm_compute. reflexivity.
Qed.

(** C5 as amended, on that stream. *)
Lemma block_count_not_bounded_huge_count :
  small_readBlocks (open [huge_count]) =
    match read_groups (D:=small_decoders) (Z.to_nat 4294967295) (drained 4) with
    | (Ok bs, s') => (Ok (Some <$> bs), s')
    | (Err e, s') => (Err e, s')
    end.
Proof.
  apply (block_count_not_bounded (D:=small_decoders)
           (open [huge_count]) (drained 4) 4294967295 0 W1 (drained 0)).
  - vm_compute. reflexivity.
  - lia.
Defined.

(** A transaction list comes out in input order: element [i] is the
    transaction decoded after [i] transactions. *)
Lemma readTransactions_in_order {Transaction}
    (readTransaction : Reader ByteCursor Thrown Transaction)
    (c c' : ByteCursor) (txs : list Transaction) :
  readTransactions readTransaction c = (Ok txs, c') →
  ∃ count c1,
    readUInt W4 c = (Ok count, c1)
    ∧ length txs = Z.to_nat count
    ∧ ∀ i, i < Z.to_nat count →
        ∃ tx ci, read_nth i readTransaction c1 = (Ok tx, ci) ∧ txs !! i = Some tx.
Proof.
  unfold readTransactions. intros (count & c1 & Hcount & Htxs)%bind_Ok_inv.
  exists count, c1. split; [done|]. split.
  - by eapply read_many_length.
  - intros i Hi. by eapply read_many_nth.
Qed.

(** The reads of one transaction blob, one by one. *)
Example readLengthPrefixed_blob :
  readLengthPrefixed 255 W1 (open [[x02]; [x62; x63; x64]])
  = (Ok [x62; x63], {| position := 3; buffered := [x64]; incoming := [] |}).
Proof. vm_compute. reflexivity. Qed.

(** A declared length of 256 is over the bound of 255: the read fails
    after the two bytes of the prefix, and reads none of the body. *)
Example readLengthPrefixed_too_long_256 :
  readLengthPrefixed 255 W2 (open [[x01; x00]; [x62; x63]])
  = (Err (MalformedLength 256), {| position := 2; buffered := []; incoming := [[x62; x63]] |}).
Proof. vm_compute. reflexivity. Qed.

(** C6, on a blob that uses its stream up, and on that stream less
    its last byte. *)
Lemma read_exact_or_fail_blob :
  ∃ c2', perform 255 (DoReadLengthPrefixed W1) (open [[x02; x62]])
         = (Err TruncatedStream, c2').
Proof.
  eapply (proj2 (proj2 (proj2 (read_exact_or_fail 255 (DoReadLengthPrefixed W1)
                                 (open [[x02; x62; x63]])))))
    with (bytes := [x02; x62]) (last := x63).
  - vm_compute. reflexivity.
  - reflexivity.
  - reflexivity.
  - reflexivity.
Defined.

(** C7, on a stream of five bytes: a one-byte integer, a blob whose
    body is cut short, a read past the end, and a read of the rest.
    The two failures leave the position at 2, after the prefix of the
    blob, and the last read moves it to 5. *)
Example steps_positions :
  position <$> steps 255 (open [[x07; x09]; [x61; x62; x63]])
    [DoReadUInt W1; DoReadLengthPrefixed W1; DoReadFixed 4; DoReadFixed 3]
  = [1; 2; 2; 5].
Proof. vm_compute. reflexivity. Qed.

(** C7, on the same operations: at the end the five bytes of the stream
    are consumed, and the position is 5. *)
Lemma position_tracks_consumption_five_bytes :
  ∃ consumed,
    concat [[x07; x09]; [x61; x62; x63]] = consumed ++ unread (drained 5)
    ∧ position (drained 5) = length consumed.
Proof.
  apply (proj2 (proj2 (position_tracks_consumption 255
           [DoReadUInt W1; DoReadLengthPrefixed W1; DoReadFixed 4; DoReadFixed 3]
           (open [[x07; x09]; [x61; x62; x63]])))
         [[x07; x09]; [x61; x62; x63]] (drained 5) eq_refl).
  vm_compute. do 4 apply list_elem_of_further. apply list_elem_of_here.
Defined.

End Streams.

(** ** Regular expressions *)

Section RegExpFacts.
Import RegExp.

Lemma str_app_nil_r (s : string) : s +:+ "" = s.
Proof. induction s as [|c s IH]; [done|]. change (String c (s +:+ "") = String c s). by rewrite IH. Qed.

Lemma str_app_cons (c : ascii) (s t : string) : String c s +:+ t = String c (s +:+ t).
Proof. reflexivity. Qed.

Lemma str_app_eq_nil (s t : string) : s +:+ t = "" → s = "" ∧ t = "".
Proof. destruct s; [done | discriminate]. Qed.

Lemma list_ascii_of_string_app (s t : string) :
  list_ascii_of_string (s +:+ t) = (list_ascii_of_string s ++ list_ascii_of_string t)%list.
Proof.
  induction s as [|c s IH]; [done|].
  rewrite str_app_cons. cbn [list_ascii_of_string]. by rewrite IH.
Qed.

Lemma matches_nil_nullable (r : regex) (s : string) :
  matches r s → s = "" → nullable r = true.
Proof.
  induction 1 as [| | r1 r2 s1 s2 _ IH1 _ IH2 | r1 r2 s _ IH | r1 r2 s _ IH | |];
    intros Hs; cbn [nullable]; try done.
  - apply str_app_eq_nil in Hs as [-> ->]. by rewrite IH1, IH2.
  - by rewrite IH.
  - rewrite IH by done. by destruct (nullable r1).
Qed.

Lemma nullable_matches (r : regex) : nullable r = true ↔ matches r "".
Proof.
  split; [|intros H; by eapply matches_nil_nullable].
  induction r as [| |p|r1 IH1 r2 IH2|r1 IH1 r2 IH2|r IH]; cbn [nullable]; try done.
  - intros _. constructor.
  - intros [H1 H2]%andb_true_iff. apply (matches_Seq r1 r2 "" ""); auto.
  - intros [H1|H2]%orb_true_iff; [apply matches_Alt_l | apply matches_Alt_r]; auto.
  - intros _. constructor.
Qed.

Lemma deriv_sound (c : ascii) (r : regex) (s : string) :
  matches (deriv c r) s → matches r (String c s).
Proof.
  revert s. induction r as [| |p|r1 IH1 r2 IH2|r1 IH1 r2 IH2|r IH]; intros s; cbn [deriv].
  - inversion 1.
  - inversion 1.
  - destruct (p c) eqn:Hp; inversion 1; subst. by constructor.
  - destruct (nullable r1) eqn:Hnull.
    + inversion 1 as [| | | ? ? ? Hl | ? ? ? Hr | |]; subst.
      * inversion Hl as [| |? ? s1 s2 H1 H2| | | |]; subst.
        rewrite <- str_app_cons. constructor; auto.
      * apply (matches_Seq r1 r2 "" (String c s)); [by apply nullable_matches | auto].
    + inversion 1 as [| |? ? s1 s2 H1 H2| | | |]; subst.
      rewrite <- str_app_cons. constructor; auto.
  - inversion 1; subst; [apply matches_Alt_l | apply matches_Alt_r]; auto.
  - inversion 1 as [| |? ? s1 s2 H1 H2| | | |]; subst.
    rewrite <- str_app_cons. constructor; auto.
Qed.

Lemma deriv_complete (c : ascii) (r : regex) (s0 : string) :
  matches r s0 → ∀ s, s0 = String c s → matches (deriv c r) s.
Proof.
  induction 1 as [| p c0 Hp | r1 r2 s1 s2 H1 IH1 H2 IH2 | r1 r2 s0 _ IH | r1 r2 s0 _ IH
                  | r | r s1 s2 H1 IH1 H2 IH2];
    intros s Hs; cbn [deriv].
  - discriminate.
  - injection Hs as -> <-. rewrite Hp. constructor.
  - destruct s1 as [|c1 s1].
    + assert (nullable r1 = true) as -> by (by apply nullable_matches).
      apply matches_Alt_r. by apply IH2.
    + rewrite str_app_cons in Hs. injection Hs as -> <-.
      assert (matches (Seq (deriv c r1) r2) (s1 +:+ s2)) by (constructor; auto).
      destruct (nullable r1); [by apply matches_Alt_l | done].
  - apply matches_Alt_l. auto.
  - apply matches_Alt_r. auto.
  - discriminate.
  - destruct s1 as [|c1 s1].
    + by apply IH2.
    + rewrite str_app_cons in Hs. injection Hs as -> <-.
      constructor; auto.
Qed.

(** The matcher decides [matches]. *)
Lemma test_matches (r : regex) (s : string) : test r s = true ↔ matches r s.
Proof.
  revert r. induction s as [|c s IH]; intros r; cbn [test].
  - apply nullable_matches.
  - rewrite IH. split; [apply deriv_sound|]. intros H. by eapply deriv_complete.
Qed.

(** What a class, and a choice of two classes, match. *)
Lemma matches_Class_iff (p : ascii → bool) (s : string) :
  matches (Class p) s ↔ ∃ c, s = String c "" ∧ p c = true.
Proof.
  split; [inversion 1; eauto | intros (c & -> & Hp); by constructor].
Qed.

Lemma matches_Alt_iff (r1 r2 : regex) (s : string) :
  matches (Alt r1 r2) s ↔ matches r1 s ∨ matches r2 s.
Proof.
  split; [inversion 1; auto | intros [H|H]; [apply matches_Alt_l | apply matches_Alt_r]; done].
Qed.

Lemma matches_Seq_iff (r1 r2 : regex) (s : string) :
  matches (Seq r1 r2) s ↔ ∃ s1 s2, s = s1 +:+ s2 ∧ matches r1 s1 ∧ matches r2 s2.
Proof.
  split; [inversion 1; eauto | intros (s1 & s2 & -> & H1 & H2); by constructor].
Qed.

(** A starred one-character expression matches the strings all of
    whose characters it accepts. *)
Lemma matches_Star_chars (r : regex) (p : ascii → bool) :
  (∀ s, matches r s ↔ ∃ c, s = String c "" ∧ p c = true) →
  ∀ s, matches (Star r) s ↔ Forall (λ c, p c = true) (list_ascii_of_string s).
Proof.
  intros Hr s. split.
  - remember (Star r) as r' eqn:Hr'.
    induction 1 as [| | | | | | r0 s1 s2 H1 _ H2 IH2]; try discriminate.
    + constructor.
    + injection Hr' as ->. apply Hr in H1 as (c & -> & Hc).
      rewrite str_app_cons. cbn [list_ascii_of_string]. constructor; auto.
  - induction s as [|c s IH]; cbn [list_ascii_of_string].
    + intros _. constructor.
    + intros [Hc Hs]%Forall_cons.
      apply (matches_Star_more r (String c "") s); [|auto].
      apply Hr. eauto.
Qed.

(** A literal matches itself only. *)
Lemma matches_lit (l s : string) : matches (lit l) s ↔ s = l.
Proof.
  revert s. induction l as [|c l IH]; intros s; cbn [lit].
  - split; [by inversion 1 | intros ->; constructor].
  - rewrite matches_Seq_iff. split.
    + intros (s1 & s2 & -> & (c' & -> & Hc)%matches_Class_iff & ->%IH).
      apply bool_decide_eq_true in Hc as ->. done.
    + intros ->. exists (String c ""), l. split; [done|]. split; [|by apply IH].
      constructor. by apply bool_decide_eq_true.
Qed.

End RegExpFacts.

(** ** Principals *)

Section PrincipalFacts.
Import RegExp Principal.

Lemma letter_class (c : ascii) :
  either (range "a" "z") (range "A" "Z") c = letter c.
Proof. destruct c as [[] [] [] [] [] [] [] []]; vm_compute; reflexivity. Qed.

Lemma name_char_class (c : ascii) :
  either (either (range "a" "z") (range "A" "Z")) (range "0" "9") c || one_of "-_" c
  = name_char c.
Proof. destruct c as [[] [] [] [] [] [] [] []]; vm_compute; reflexivity. Qed.

Lemma name_char_not_dot (c : ascii) : name_char c = true → c ≠ "."%char.
Proof. intros Hc ->. vm_compute in Hc. discriminate. Qed.

Lemma letter_name_char (c : ascii) : letter c = true → name_char c = true.
Proof. destruct c as [[] [] [] [] [] [] [] []]; vm_compute; congruence. Qed.

(** The strings [contractNameRegex] accepts: a letter, then letters,
    digits, hyphens and underscores. *)
Lemma contractNameRegex_test (s : string) :
  test contractNameRegex s = true
  ↔ ∃ c rest, s = String c rest ∧ letter c = true
              ∧ Forall (λ x, name_char x = true) (list_ascii_of_string rest).
Proof.
  rewrite test_matches. unfold contractNameRegex. rewrite matches_Seq_iff.
  assert (Hstar : ∀ rest,
    matches (Star (Alt (Class (either (either (range "a" "z") (range "A" "Z"))
                                 (range "0" "9")))
                       (Class (one_of "-_")))) rest
    ↔ Forall (λ x, name_char x = true) (list_ascii_of_string rest)).
  { apply matches_Star_chars. intros s0.
    rewrite matches_Alt_iff, !matches_Class_iff. split.
    - intros [(c & -> & Hc) | (c & -> & Hc)]; exists c; split; try done;
        rewrite <- name_char_class, Hc; [done | by rewrite orb_true_r].
    - intros (c & -> & Hc). rewrite <- name_char_class in Hc.
      apply orb_true_iff in Hc as [Hc|Hc]; [left | right]; eauto. }
  split.
  - intros (s1 & s2 & -> & (c & -> & Hc)%matches_Class_iff & Hrest%Hstar).
    exists c, s2. by rewrite <- letter_class.
  - intros (c & rest & -> & Hc & Hrest).
    exists (String c ""), rest. split; [done|]. split; [|by apply Hstar].
    apply matches_Class_iff. exists c. by rewrite letter_class.
Qed.

Lemma split_dot_cons (s : string) : ∃ field fields, split_dot s = field :: fields.
Proof.
  induction s as [|c s (field & fields & IH)]; cbn [split_dot]; [eauto|].
  case_bool_decide; [eauto|]. rewrite IH. eauto.
Qed.

(** Without a dot there is one field, the string itself. *)
Lemma split_dot_no_dot (s : string) :
  Forall (λ c, c ≠ "."%char) (list_ascii_of_string s) →
  split_dot s = [s] ∧ includes_dot s = false.
Proof.
  induction s as [|c s IH]; cbn [list_ascii_of_string split_dot includes_dot]; [done|].
  intros [Hc Hs]%Forall_cons. destruct (IH Hs) as [-> ->].
  by rewrite bool_decide_eq_false_2.
Qed.

(** The fields of [s.t] are those of [s], then those of [t]. *)
Lemma split_dot_app (s t : string) :
  split_dot (s +:+ "." +:+ t) = (split_dot s ++ split_dot t)%list
  ∧ includes_dot (s +:+ "." +:+ t) = true.
Proof.
  induction s as [|c s [IH1 IH2]].
  - done.
  - rewrite str_app_cons. cbn [split_dot includes_dot]. rewrite IH1, IH2.
    split; [|by rewrite orb_true_r].
    case_bool_decide; [done|].
    by destruct (split_dot_cons s) as (field & fields & ->).
Qed.

End PrincipalFacts.

Section PrincipalTheorems.
Import RegExp Principal.

(** X1. [isValidContractName] accepts exactly the names of 5 to 128
    characters that start with a letter and go on with letters,
    digits, hyphens and underscores. *)
Theorem isValidContractName_spec (contractName : string) :
  isValidContractName contractName = true
  ↔ (5 ≤ String.length contractName ≤ 128)%nat
    ∧ ∃ c rest, contractName = String c rest ∧ letter c = true
                ∧ Forall (λ x, name_char x = true) (list_ascii_of_string rest).
Proof.
  unfold isValidContractName. rewrite <- contractNameRegex_test.
  destruct (_ || _) eqn:Hlen.
  - apply orb_true_iff in Hlen as [Hlen%Nat.ltb_lt | Hlen%Nat.ltb_lt].
    + split; [done | lia].
    + split; [done | lia].
  - apply orb_false_iff in Hlen as [Hmax%Nat.ltb_ge Hmin%Nat.ltb_ge].
    split; [by split | tauto].
Qed.

(** A valid contract name has no dot in it. *)
Lemma isValidContractName_no_dot (contractName : string) :
  isValidContractName contractName = true →
  Forall (λ c, c ≠ "."%char) (list_ascii_of_string contractName).
Proof.
  unfold isValidContractName.
  destruct (_ || _); [discriminate|].
  intros (c & rest & -> & Hc & Hrest)%contractNameRegex_test.
  cbn [list_ascii_of_string]. constructor.
  - by apply name_char_not_dot, letter_name_char.
  - eapply Forall_impl; [exact Hrest|]. apply name_char_not_dot.
Qed.

(** X2. [isValidPrincipal] accepts [addr.name] as a contract address
    when [addr] is a valid c32 address and [name] a valid contract
    name, and it accepts as well [addr.name.rest] for any [rest]: only
    the first two fields of the split are looked at. *)
Theorem isValidPrincipal_first_two_fields (c32 : string → bool) (addr name : string) :
  Forall (λ c, c ≠ "."%char) (list_ascii_of_string addr) →
  c32 addr = true → isValidContractName name = true →
  isValidPrincipal c32 (addr +:+ "." +:+ name) = Some contractAddress
  ∧ ∀ rest, isValidPrincipal c32 (addr +:+ "." +:+ name +:+ "." +:+ rest)
            = Some contractAddress.
Proof.
  intros Haddr Hc32 Hname.
  pose proof (isValidContractName_no_dot name Hname) as Hnodot.
  destruct (split_dot_no_dot addr Haddr) as [Hfields _].
  destruct (split_dot_no_dot name Hnodot) as [Hfields' _].
  assert (Hne : ∀ t, addr +:+ "." +:+ t ≠ "").
  { intros t. destruct addr; discriminate. }
  split; [|intros rest]; unfold isValidPrincipal, isValidC32Address.
  - rewrite bool_decide_eq_false_2 by apply Hne.
    destruct (split_dot_app addr name) as [-> ->].
    rewrite Hfields, Hfields'. cbn [app]. by rewrite Hc32, Hname.
  - rewrite bool_decide_eq_false_2 by apply Hne.
    destruct (split_dot_app addr (name +:+ "." +:+ rest)) as [-> ->].
    destruct (split_dot_app name rest) as [-> _].
    rewrite Hfields, Hfields'. cbn [app]. by rewrite Hc32, Hname.
Qed.

(** X3. A principal with a dot in it is never a standard address, one
    without a dot is never a contract address, and the empty string is
    no principal, whatever [c32addressDecode] makes of them. *)
Theorem isValidPrincipal_kinds (c32 : string → bool) (principal : string) :
  (isValidPrincipal c32 principal = Some standardAddress
   ↔ principal ≠ "" ∧ includes_dot principal = false ∧ c32 principal = true)
  ∧ (isValidPrincipal c32 principal = Some contractAddress
     ↔ ∃ addr contractName fields,
         split_dot principal = addr :: contractName :: fields
         ∧ c32 addr = true ∧ isValidContractName contractName = true).
Proof.
  unfold isValidPrincipal, isValidC32Address.
  case_bool_decide as Hempty.
  { subst principal. split; split; try done; [by intros [? _] | by intros (? & ? & ? & ? & _)]. }
  destruct (includes_dot principal) eqn:Hdot.
  - split.
    + split; [|by intros (_ & ? & _)].
      destruct (split_dot principal) as [|addr [|name fields]]; try done.
      destruct (c32 addr); [|done]. by destruct (isValidContractName name).
    + destruct (split_dot principal) as [|addr [|name fields]].
      * split; [done | by intros (? & ? & ? & ? & _)].
      * split; [done | by intros (? & ? & ? & ? & _)].
      * destruct (c32 addr) eqn:Hc32; cbn [negb].
        -- destruct (isValidContractName name) eqn:Hname; cbn [negb].
           ++ split; [eauto 10 | done].
           ++ split; [done|]. intros (? & ? & ? & [= <- <- <-] & _ & ?). congruence.
        -- split; [done|]. intros (? & ? & ? & [= <- <- <-] & ? & _). congruence.
  - split.
    + destruct (c32 principal); split; try done; by intros (_ & _ & ?).
    + split; [by destruct (c32 principal)|].
      intros (addr & name & fields & Hsplit & _). exfalso.
      clear Hempty. revert addr name fields Hsplit.
      induction principal as [|c s IH]; intros addr name fields; cbn [split_dot]; [done|].
      cbn [includes_dot] in Hdot. apply orb_false_iff in Hdot as [Hc Hs].
      rewrite Hc. destruct (split_dot s) as [|f [|f2 fs]] eqn:Hsplit; try done.
      intros [= <- <- <-]. by eapply IH.
Qed.

End PrincipalTheorems.

(** ** Ports *)

Section PortFacts.
Import RegExp Port.

Lemma digit_spec (c : ascii) :
  digit c = ((48 <=? N_of_ascii c) && (N_of_ascii c <=? 57))%N.
Proof. reflexivity. Qed.

Lemma digit_not_sign (c : ascii) :
  digit c = true → c ≠ "-"%char ∧ c ≠ "+"%char ∧ c ≠ "I"%char.
Proof. intros Hc. repeat split; intros ->; vm_compute in Hc; discriminate. Qed.

(** [digits_value] reads a string exactly when it is made of digits;
    the value is not negative. *)
Lemma digits_value_Some (s : string) (acc : Z) :
  Forall (λ c, digit c = true) (list_ascii_of_string s) → (0 ≤ acc)%Z →
  ∃ z, digits_value acc s = Some z ∧ (0 ≤ z)%Z.
Proof.
  revert acc. induction s as [|c s IH]; intros acc; cbn [list_ascii_of_string digits_value].
  - eauto.
  - intros [Hc Hs]%Forall_cons Hacc. rewrite <- digit_spec, Hc.
    apply IH; [done | lia].
Qed.

Lemma digits_value_digits (s : string) (acc z : Z) :
  digits_value acc s = Some z → Forall (λ c, digit c = true) (list_ascii_of_string s).
Proof.
  revert acc. induction s as [|c s IH]; intros acc; cbn [list_ascii_of_string digits_value].
  - constructor.
  - rewrite <- digit_spec. destruct (digit c) eqn:Hc; [|discriminate].
    intros Hs. constructor; [done | by eapply IH].
Qed.

(** The strings [portRegex] accepts. *)
Lemma portRegex_test (s : string) :
  test portRegex s = true
  ↔ ∃ sign body,
      s = sign +:+ body ∧ (sign = "" ∨ sign = "-" ∨ sign = "+")
      ∧ (body = "Infinity"
         ∨ ∃ c rest, body = String c rest
                     ∧ Forall (λ x, digit x = true) (list_ascii_of_string body)).
Proof.
  rewrite test_matches. unfold portRegex, opt, plus.
  rewrite matches_Seq_iff.
  assert (Hsign : ∀ t, matches (Alt Empty (Class (one_of "-+"))) t
                       ↔ t = "" ∨ t = "-" ∨ t = "+").
  { intros t. rewrite matches_Alt_iff, matches_Class_iff. split.
    - intros [Ht | (c & -> & Hc)]; [inversion Ht; auto|].
      apply bool_decide_eq_true in Hc. cbn in Hc.
      apply elem_of_cons in Hc as [-> | Hc]; [auto|].
      apply list_elem_of_singleton in Hc as ->. auto.
    - intros [-> | [-> | ->]]; [left; constructor | right | right];
        eexists; split; try reflexivity; by vm_compute. }
  assert (Hdigits : ∀ t, matches (Seq (Class (range "0" "9")) (Star (Class (range "0" "9")))) t
                         ↔ ∃ c rest, t = String c rest
                             ∧ Forall (λ x, digit x = true) (list_ascii_of_string t)).
  { intros t. rewrite matches_Seq_iff. split.
    - intros (s1 & s2 & -> & (c & -> & Hc)%matches_Class_iff & Hrest).
      apply (matches_Star_chars _ (range "0" "9")) in Hrest;
        [|intros; apply matches_Class_iff].
      exists c, s2. split; [done|]. rewrite str_app_cons. cbn [list_ascii_of_string].
      by constructor.
    - intros (c & rest & -> & [Hc Hrest]%Forall_cons).
      exists (String c ""), rest. split; [done|]. split.
      + apply matches_Class_iff. eauto.
      + apply (matches_Star_chars _ (range "0" "9")); [|done].
        intros; apply matches_Class_iff. }
  split.
  - intros (s1 & s2 & -> & Hs1%Hsign & Hs2%matches_Alt_iff).
    exists s1, s2. split; [done|]. split; [done|].
    destruct Hs2 as [Hs2%Hdigits | Hs2%matches_lit]; auto.
  - intros (sign & body & -> & Hsign' & Hbody).
    exists sign, body. split; [done|]. split; [by apply Hsign|].
    apply matches_Alt_iff. destruct Hbody as [-> | Hbody].
    + right. by apply matches_lit.
    + left. by apply Hdigits.
Qed.

(** [Number] of a numeral without a sign. *)
Lemma Number_of_string_digits (c : ascii) (rest : string) (z : Z) :
  digit c = true → digits_value 0 (String c rest) = Some z →
  Number_of_string (String c rest) = Finite z
  ∧ unsigned_value (String c rest) = Finite z.
Proof.
  intros Hc Hz. destruct (digit_not_sign c Hc) as (Hm & Hp & HI).
  assert (unsigned_value (String c rest) = Finite z) as Hu.
  { unfold unsigned_value. rewrite bool_decide_eq_false_2 by congruence. by rewrite Hz. }
  split; [|done]. rewrite <- Hu. clear -Hm Hp.
  destruct c as [[] [] [] [] [] [] [] []]; try reflexivity; congruence.
Qed.

(** The digits stdpp prints for a number are read back as the
    number. *)
Lemma pretty_N_go_digits (x : N) (s : string) :
  Forall (λ c, digit c = true) (list_ascii_of_string s) →
  Forall (λ c, digit c = true) (list_ascii_of_string (pretty_N_go x s))
  ∧ digits_value 0 (pretty_N_go x s) = digits_value (Z.of_N x) s.
Proof.
  revert s. induction (N.lt_wf_0 x) as [x _ IH]; intros s Hs.
  destruct (decide (x = 0%N)) as [-> | Hx]; [by rewrite pretty_N_go_0|].
  rewrite pretty_N_go_step by lia.
  assert (digit (pretty_N_char (x mod 10)) = true
          ∧ (N_of_ascii (pretty_N_char (x mod 10)) - 48 = x mod 10)%N) as [Hd Hv].
  { assert (x mod 10 < 10)%N as Hlt by (by apply N.mod_lt).
    generalize dependent (x mod 10)%N. intros d Hlt.
    assert (d = 0 ∨ d = 1 ∨ d = 2 ∨ d = 3 ∨ d = 4 ∨ d = 5 ∨ d = 6 ∨ d = 7 ∨ d = 8
            ∨ d = 9)%N as Hcases by lia.
    destruct Hcases as [-> | [-> | [-> | [-> | [-> | [-> | [-> | [-> | [-> | ->]]]]]]]]];
      by vm_compute. }
  destruct (IH (x / 10)%N) with (s := String (pretty_N_char (x mod 10)) s) as [IH1 IH2].
  { apply N.div_lt; lia. }
  { cbn [list_ascii_of_string]. by constructor. }
  split; [done|]. rewrite IH2. cbn [digits_value].
  rewrite <- digit_spec, Hd, Hv. f_equal.
  assert (x = 10 * (x / 10) + x mod 10)%N as Hdm by (by apply N.div_mod).
  lia.
Qed.

Lemma pretty_positive_digits (p : positive) :
  ∃ c rest, pretty (Zpos p) = String c rest
            ∧ Forall (λ x, digit x = true) (list_ascii_of_string (pretty (Zpos p)))
            ∧ digits_value 0 (pretty (Zpos p)) = Some (Zpos p).
Proof.
  change (pretty (Zpos p)) with (pretty_N_go (Npos p) "").
  destruct (pretty_N_go_digits (Npos p) "") as [Hdigits Hvalue]; [constructor|].
  cbn [digits_value] in Hvalue.
  destruct (pretty_N_go (Npos p) "") as [|c rest] eqn:Hp.
  - cbn in Hvalue. discriminate.
  - eauto.
Qed.

End PortFacts.

Section PortTheorems.
Import RegExp Port.

(** A numeral in range is accepted, with or without a plus sign. *)
Lemma parsePort_numeral (digits : string) (z : Z) :
  digits ≠ "" → digits_value 0 digits = Some z → (1 ≤ z ≤ 65535)%Z →
  parsePort (PortString digits) = Ok (Some (Finite z))
  ∧ parsePort (PortString ("+" +:+ digits)) = Ok (Some (Finite z)).
Proof.
  intros Hne Hz Hrange.
  pose proof (digits_value_digits _ _ _ Hz) as Hdigits.
  destruct digits as [|c rest]; [done|].
  assert (digit c = true) as Hc by (by inversion Hdigits).
  destruct (Number_of_string_digits c rest z Hc Hz) as [Hnum Huns].
  assert (lt (Finite z) 1 || gt (Finite z) 65535 = false) as Hin.
  { cbn [lt gt]. apply orb_false_iff. split; apply Z.ltb_ge; lia. }
  split; unfold parsePort; cbn [toString Number].
  - rewrite (proj2 (portRegex_test _)), Hnum, Hin; [done|].
    exists "", (String c rest). eauto 10.
  - rewrite (proj2 (portRegex_test _)).
    + change (Number_of_string ("+" +:+ String c rest)) with (unsigned_value (String c rest)).
      by rewrite Huns, Hin.
    + exists "+", (String c rest). eauto 10.
Qed.

(** What a string that is accepted looks like. *)
Lemma parsePort_string_inv (s : string) (port : NumberValue) :
  parsePort (PortString s) = Ok (Some port) →
  ∃ digits z,
    (s = digits ∨ s = "+" +:+ digits) ∧ digits ≠ ""
    ∧ digits_value 0 digits = Some z ∧ (1 ≤ z ≤ 65535)%Z ∧ port = Finite z.
Proof.
  unfold parsePort; cbn [toString Number].
  destruct (test portRegex s) eqn:Htest; [|discriminate].
  apply portRegex_test in Htest as (sign & body & -> & Hsign & Hbody).
  destruct Hbody as [-> | (c & rest & -> & Hdigits)].
  { destruct Hsign as [-> | [-> | ->]]; vm_compute; discriminate. }
  assert (digit c = true) as Hc by (by inversion Hdigits).
  destruct (digits_value_Some _ 0 Hdigits) as (z & Hz & Hpos); [lia|].
  destruct (Number_of_string_digits c rest z Hc Hz) as [Hnum Huns].
  destruct Hsign as [-> | [-> | ->]].
  - change ("" +:+ String c rest) with (String c rest). rewrite Hnum. cbn [lt gt].
    destruct (_ || _) eqn:Hin; [discriminate|]. intros [= <-].
    apply orb_false_iff in Hin as [?%Z.ltb_ge ?%Z.ltb_ge].
    exists (String c rest), z. repeat split; auto; lia.
  - change (Number_of_string ("-" +:+ String c rest))
      with (negate (unsigned_value (String c rest))).
    rewrite Huns. cbn [negate lt].
    rewrite (proj2 (Z.ltb_lt (- z) 1)) by lia. discriminate.
  - change (Number_of_string ("+" +:+ String c rest)) with (unsigned_value (String c rest)).
    rewrite Huns. cbn [lt gt].
    destruct (_ || _) eqn:Hin; [discriminate|]. intros [= <-].
    apply orb_false_iff in Hin as [?%Z.ltb_ge ?%Z.ltb_ge].
    exists (String c rest), z. repeat split; auto; lia.
Qed.

(** X4. Of the strings, [parsePort] accepts exactly the decimal
    numerals, with leading zeros or a leading plus sign if any, whose
    value is between 1 and 65535, and it returns that value; it never
    returns [undefined] for a string. *)
Theorem parsePort_string_accepts (s : string) (port : NumberValue) :
  (parsePort (PortString s) = Ok (Some port)
   ↔ ∃ digits z,
       (s = digits ∨ s = "+" +:+ digits) ∧ digits ≠ ""
       ∧ digits_value 0 digits = Some z ∧ (1 ≤ z ≤ 65535)%Z ∧ port = Finite z)
  ∧ parsePort (PortString s) ≠ Ok None.
Proof.
  split; [split; [apply parsePort_string_inv|]|].
  - intros (digits & z & Hs & Hne & Hz & Hrange & ->).
    destruct (parsePort_numeral digits z Hne Hz Hrange) as [H1 H2].
    by destruct Hs as [-> | ->].
  - unfold parsePort. destruct (test _ _); [|done]. by destruct (_ || _).
Qed.

(** X5. Whatever the argument, a port that [parsePort] returns is an
    integer between 1 and 65535, never [NaN] or an infinity; and it
    returns [undefined] for the argument [undefined] only. *)
Theorem parsePort_in_range (portVal : PortVal) :
  (∀ port, parsePort portVal = Ok (Some port) →
           ∃ z, port = Finite z ∧ (1 ≤ z ≤ 65535)%Z)
  ∧ (parsePort portVal = Ok None ↔ portVal = PortUndefined).
Proof.
  split.
  - intros port. destruct portVal as [|s|n].
    + discriminate.
    + intros (digits & z & _ & _ & _ & Hrange & ->)%parsePort_string_inv. eauto.
    + unfold parsePort; cbn [toString Number].
      destruct (test portRegex (Number_toString n)) eqn:Htest; [|discriminate].
      destruct n as [z|negative|].
      * cbn [lt gt]. destruct (_ || _) eqn:Hin; [discriminate|]. intros [= <-].
        apply orb_false_iff in Hin as [?%Z.ltb_ge ?%Z.ltb_ge]. exists z. split; [done | lia].
      * by destruct negative.
      * vm_compute in Htest. discriminate.
  - split; [|by intros ->].
    destruct portVal as [|s|n]; [done| |]; unfold parsePort;
      (destruct (test _ _); [|done]); by destruct (_ || _).
Qed.

(** The numeral of an integer is accepted only if the integer is in
    range. *)
Lemma parsePort_pretty_inv (z : Z) (port : NumberValue) :
  parsePort (PortString (pretty z)) = Ok (Some port) → (1 ≤ z ≤ 65535)%Z.
Proof.
  intros (digits & z' & Hs & Hne & Hz & Hrange & ->)%parsePort_string_inv.
  destruct z as [|p|p].
  - destruct Hs as [<- | Hs]; [|discriminate]. vm_compute in Hz. congruence.
  - destruct (pretty_positive_digits p) as (c & rest & Hp & Hdigits & Hvalue).
    destruct Hs as [<- | Hs]; [congruence|].
    rewrite Hp in Hs, Hdigits. injection Hs as Hsign _. subst c.
    cbn [list_ascii_of_string] in Hdigits. apply Forall_cons in Hdigits as [Hc _].
    vm_compute in Hc. discriminate.
  - change (pretty (Z.neg p)) with ("-" +:+ pretty (Zpos p)) in Hs.
    destruct Hs as [<- | Hs]; [|discriminate].
    apply digits_value_digits in Hz.
    rewrite str_app_cons in Hz. cbn [list_ascii_of_string] in Hz.
    apply Forall_cons in Hz as [Hc _]. vm_compute in Hc. discriminate.
Qed.

(** X6. A port number printed in decimal is read back: for every
    integer [z], [parsePort] of the numeral of [z], and of the number
    [z] itself, returns [z] when [z] is between 1 and 65535, and
    throws otherwise. *)
Theorem parsePort_decimal (z : Z) :
  parsePort (PortString (pretty z))
  = (if bool_decide (1 ≤ z ≤ 65535)%Z then Ok (Some (Finite z))
     else Err (PortInvalid (PortString (pretty z))))
  ∧ parsePort (PortNumber (Finite z))
    = (if bool_decide (1 ≤ z ≤ 65535)%Z then Ok (Some (Finite z))
       else Err (PortInvalid (PortNumber (Finite z)))).
Proof.
  case_bool_decide as Hrange.
  - destruct z as [|p|p]; [lia| |lia].
    destruct (pretty_positive_digits p) as (c & rest & Hp & Hdigits & Hvalue).
    destruct (parsePort_numeral (pretty (Zpos p)) (Zpos p)) as [Hstring _];
      [by rewrite Hp | done | done |].
    split; [done|]. unfold parsePort. cbn [toString Number Number_toString lt gt].
    rewrite Number_toString_safe by lia.
    rewrite (proj2 (portRegex_test _)) by (exists "", (pretty (Z.pos p)); eauto 10).
    rewrite (proj2 (Z.ltb_ge _ _)), (proj2 (Z.ltb_ge _ _)) by lia. done.
  - split.
    + destruct (parsePort (PortString (pretty z))) as [[port|]|[pv]] eqn:Hparse.
      * by apply parsePort_pretty_inv in Hparse.
      * unfold parsePort in Hparse.
        destruct (test _ _); [destruct (_ || _)|]; discriminate.
      * unfold parsePort in Hparse.
        destruct (test _ _); [destruct (_ || _)|]; congruence.
    + unfold parsePort; cbn [toString Number lt gt].
      destruct (test _ _); [|done].
      destruct (_ || _) eqn:Hin; [done|].
      apply orb_false_iff in Hin as [?%Z.ltb_ge ?%Z.ltb_ge]. lia.
Qed.

End PortTheorems.

(** ** More on hex strings *)

Section HexMore.
Import Node.

Local Close Scope string_scope.


(** A result of [normalizeHashString] is the hex form of 32 bytes. *)
Lemma normalizeHashString_bytes (input : HashInput) (out : JsString) :
  normalizeHashString input = Some out →
  ∃ bytes, length bytes = 32 ∧ out = code_units "0x" ++ toString_hex bytes.
Proof.
  destruct input as [s|]; [|discriminate]. unfold normalizeHashString. cbv zeta.
  match goal with
  | |- context [match ?x with Some _ => _ | None => _ end = _] =>
      destruct x as [bytes|]; [|discriminate]
  end.
  destruct (Nat.eqb (length bytes) 32) eqn:Hlen; [|discriminate].
  apply Nat.eqb_eq in Hlen. intros [= <-]. eauto.
Qed.

(** X7. Decoding then encoding: on [0x] followed by an even number of
    hexadecimal digits, [hexToBuffer] returns one byte for every two
    digits, and [bufferToHexPrefixString] of those bytes is the string
    again, in lower case. *)
Theorem bufferToHexPrefixString_hexToBuffer (n : nat) (digits : JsString) :
  hex_digits (2 * n) digits →
  hexToBuffer (code_units "0x" ++ digits) = Ok (from_hex digits)
  ∧ length (from_hex digits) = n
  ∧ bufferToHexPrefixString (from_hex digits) = code_units "0x" ++ toLowerCase digits.
Proof.
  intros Hdigits. destruct (from_hex_digits n digits Hdigits) as [Hlen Hstr].
  destruct Hdigits as [Hlen2 _].
  rewrite hexToBuffer_0x, Hlen2, even_length_mod.
  split; [done|]. split; [done|]. unfold bufferToHexPrefixString. by rewrite Hstr.
Qed.


(** X9. The two helpers compose: every string [normalizeHashString]
    returns is accepted by [hexToBuffer], which makes 32 bytes of it,
    and [bufferToHexPrefixString] of these is the string again. *)
Theorem hexToBuffer_normalizeHashString (input : HashInput) (out : JsString) :
  normalizeHashString input = Some out →
  ∃ bytes,
    hexToBuffer out = Ok bytes
    ∧ length bytes = 32
    ∧ bufferToHexPrefixString bytes = out.
Proof.
  intros (bytes & Hlen & ->)%normalizeHashString_bytes.
  exists bytes. rewrite hexToBuffer_0x, length_toString_hex, even_length_mod.
  by rewrite from_hex_toString_hex.
Qed.

(** X10. The prefix is optional and of either case for
    [normalizeHashString], and required in lower case by
    [hexToBuffer]: of 64 hexadecimal digits alone, or after [0X], the
    first makes a hash and the second throws. *)
Theorem hexToBuffer_wants_lower_case_prefix (digits : JsString) :
  hex_digits 64 digits →
  normalizeHashString (InString digits) = Some (code_units "0x" ++ toLowerCase digits)
  ∧ normalizeHashString (InString (code_units "0X" ++ digits))
    = Some (code_units "0x" ++ toLowerCase digits)
  ∧ hexToBuffer digits = Err (MissingPrefix digits)
  ∧ hexToBuffer (code_units "0X" ++ digits)
    = Err (MissingPrefix (code_units "0X" ++ digits)).
Proof.
  intros Hdigits.
  split; [apply normalizeHashString_shaped; split; [tauto | done]|].
  split; [apply normalizeHashString_shaped; split; [tauto | done]|].
  split; [|reflexivity].
  destruct Hdigits as [Hlen Hall].
  destruct digits as [|a [|b rest]]; try (cbn in Hlen; lia).
  apply Forall_cons in Hall as [_ [Hb _]%Forall_cons].
  unfold hexToBuffer, startsWith. rewrite code_units_0x. cbn [length take].
  case_bool_decide as Hpre; [|done].
  injection Hpre as -> ->. vm_compute in Hb. discriminate.
Qed.

End HexMore.

(** ** More on the enum helpers *)

Section EnumMore.
Import Enum EnumParse.
Variable objects : ObjRef → EnumObject.

Local Close Scope string_scope.

Lemma getEnumDescription_miss_eq r v st :
  enumMaps st !! r = None →
  getEnumDescription objects r v st
  = getEnumDescription objects r v (set_enumMap r (enumMap_of (objects r)) st).
Proof.
  intros H. funelim (getEnumDescription objects r v st); [congruence|]. done.
Qed.

(** The map built for an enum object gives, for a value, the name of
    the last property that has it. *)
Lemma enumMap_of_snoc (o : EnumObject) (key : string) (value : PropValue) :
  enumMap_of (o ++ [(key, value)])
  = if typeof_number value then <[value := key]> (enumMap_of o) else enumMap_of o.
Proof.
  unfold enumMap_of, Map_from, Object_entries.
  rewrite filter_app, fmap_app, foldl_app, filter_cons, filter_nil. cbn [snd].
  destruct (typeof_number value).
  - by rewrite decide_True.
  - by rewrite decide_False.
Qed.

Lemma name_of_snoc (o : EnumObject) (key : string) (value : PropValue) (v : Z) :
  name_of (o ++ [(key, value)]) v
  = if decide (value = PNum v) then Some key else name_of o v.
Proof.
  unfold name_of, Object_entries.
  rewrite filter_app, fmap_app, filter_cons, filter_nil. cbn [snd].
  destruct (decide (value = PNum v)).
  - cbn. apply last_snoc.
  - cbn. by rewrite app_nil_r.
Qed.

Lemma enumMap_of_lookup (o : EnumObject) (v : Z) :
  enumMap_of o !! PNum v = name_of o v.
Proof.
  induction o as [|[key value] o IH] using rev_ind; [done|].
  rewrite enumMap_of_snoc, name_of_snoc.
  destruct value as [n|s]; cbn [typeof_number].
  - rewrite lookup_insert. by destruct (decide (PNum n = PNum v)).
  - by destruct (decide (PStr s = PNum v)).
Qed.

Lemma no_caches_maps_coherent : maps_coherent objects no_caches.
Proof. intros r m. cbn. by rewrite lookup_empty. Qed.

(** X11. [parseEnum] returns the number it is given when the number is
    the value of a property of the enum object, and throws otherwise:
    the error made by the formatter if one is passed, its own error if
    none is. *)
Theorem parseEnum_spec {Error : Type} (r : ObjRef) (num : Z)
    (formatter : option (Z → Error)) (st : Caches) :
  checkers_coherent objects st →
  ((∃ key, (key, PNum num) ∈ objects r) →
   (parseEnum objects r num formatter st).1 = Ok num)
  ∧ ((¬ ∃ key, (key, PNum num) ∈ objects r) →
     (parseEnum objects r num formatter st).1
     = Err (match formatter with
            | Some f => Formatted (f num)
            | None => FailedToParse num
            end))
  ∧ checkers_coherent objects (parseEnum objects r num formatter st).2.
Proof.
  intros Hst. unfold parseEnum.
  pose proof (isEnum_answer objects r num st Hst) as Hanswer.
  pose proof (isEnum_coherent objects r num st Hst) as Hst'.
  pose proof (call_createEnumChecker (objects r) num) as Hcall.
  destruct (isEnum objects r num st) as [valid st']. cbn [fst snd] in *.
  split; [|split].
  - intros Hin. apply Hcall in Hin. rewrite Hanswer, Hin. done.
  - intros Hout. destruct valid.
    + destruct Hout. apply Hcall. by rewrite <- Hanswer.
    + by destruct formatter.
  - destruct valid; [done|]. by destruct formatter.
Qed.

(** X12. [getEnumDescription] shows the value, printed as JavaScript
    prints a number, followed by the quoted name of the last property
    of the enum object that has this value, and the value alone when
    no property has it. A value in the safe range, below 2^53 in
    size, is printed as its decimal numeral. *)
Theorem getEnumDescription_spec (r : ObjRef) (v : Z) (st : Caches) :
  maps_coherent objects st →
  (getEnumDescription objects r v st).1
  = match name_of (objects r) v with
    | Some enumKey => (Js.Number_toString v +:+ " '" +:+ enumKey +:+ "'")%string
    | None => Js.Number_toString v
    end
  ∧ ((Z.abs v < 2 ^ 53)%Z → Js.Number_toString v = pretty v)
  ∧ maps_coherent objects (getEnumDescription objects r v st).2.
Proof.
  intros Hst.
  assert (Hhit : ∀ st0, enumMaps st0 !! r = Some (enumMap_of (objects r)) →
    (getEnumDescription objects r v st0).1
    = match name_of (objects r) v with
      | Some enumKey => (Js.Number_toString v +:+ " '" +:+ enumKey +:+ "'")%string
      | None => Js.Number_toString v
      end
    ∧ (getEnumDescription objects r v st0).2 = st0).
  { intros st0 Hm. rewrite (getEnumDescription_hit objects r v st0 _ Hm).
    rewrite enumMap_of_lookup. by destruct (name_of (objects r) v). }
  destruct (enumMaps st !! r) as [m|] eqn:Hr.
  - rewrite (Hst r m Hr) in Hr. destruct (Hhit st Hr) as [-> ->].
    split; [done|]. split; [apply Number_toString_safe | done].
  - rewrite (getEnumDescription_miss_eq r v st Hr).
    destruct (Hhit (set_enumMap r (enumMap_of (objects r)) st)) as [-> ->].
    { cbn. apply lookup_insert_eq. }
    split; [done|]. split; [apply Number_toString_safe|].
    intros r' m'. cbn. rewrite lookup_insert.
    case_decide as Heq; [by intros [= <-]; subst | apply Hst].
Qed.

End EnumMore.

(** ** A map as a cache *)

Section GetOrAddTheorems.
Import GetOrAdd.
Context {K : Type} `{Countable K} {V W : Type}.

Local Close Scope string_scope.

(** X13. Whatever [create] does to the map while it runs, storing
    another value under the key included, a defined value that
    [getOrAdd] returns is the value the map holds for the key
    afterwards, and later calls for the key return it without running
    [create] and without changing the map or the state. An exception
    of [getOrAdd] is one of [create], run because the key had no
    defined value, and [getOrAdd] has then stored nothing. A [create]
    that returns [undefined] is not remembered. The keys other than
    [key] are as [create] left them. *)
Theorem getOrAdd_memo {E : Type} (map : gmap K (option V)) (key : K)
    (create : Create (K := K) (V := V) (W := W) E) (world : W) :
  (∀ val map' world',
     getOrAdd map key create world = (Ok (Some val), map', world') →
     Map_get map' key = Some val
     ∧ ∀ (create' : Create (K := K) (V := V) (W := W) E) w,
         getOrAdd map' key create' w = (Ok (Some val), map', w))
  ∧ (∀ e map' world',
       getOrAdd map key create world = (Err e, map', world') →
       Map_get map key = None ∧ create map world = (Err e, map', world'))
  ∧ (∀ map' world',
       getOrAdd map key create world = (Ok None, map', world') →
       Map_get map' key = None)
  ∧ (∀ r map' world',
       getOrAdd map key create world = (r, map', world') →
       match Map_get map key with
       | Some val => r = Ok (Some val) ∧ map' = map ∧ world' = world
       | None => ∀ k, k ≠ key → map' !! k = (create map world).1.2 !! k
       end).
Proof.
  assert (Hset : ∀ (m : gmap K (option V)) val, Map_get (<[key := val]> m) key = val).
  { intros m val. unfold Map_get. rewrite lookup_insert_eq. by destruct val. }
  split; [|split; [|split]].
  - intros val map' world' Hcall.
    assert (Map_get map' key = Some val) as Hget'.
    { revert Hcall. unfold getOrAdd.
      destruct (Map_get map key) as [val0|] eqn:Hget.
      - by intros [= -> <- <-].
      - destruct (create map world) as [[[val1|e] map1] world1]; [|discriminate].
        intros [= -> <- <-]. apply Hset. }
    split; [done|]. intros create' w. unfold getOrAdd. by rewrite Hget'.
  - intros e map' world'. unfold getOrAdd.
    destruct (Map_get map key) as [val0|] eqn:Hget; [discriminate|].
    destruct (create map world) as [[[val1|e'] map1] world1]; [discriminate|].
    by intros [= -> <- <-].
  - intros map' world'. unfold getOrAdd.
    destruct (Map_get map key) as [val0|] eqn:Hget; [discriminate|].
    destruct (create map world) as [[[val1|e'] map1] world1]; [|discriminate].
    intros [= -> <- <-]. apply Hset.
  - intros r map' world'. unfold getOrAdd.
    destruct (Map_get map key) as [val0|] eqn:Hget.
    + by intros [= <- <- <-].
    + destruct (create map world) as [[[val1|e'] map1] world1];
        intros [= <- <- <-] k Hk; cbn [fst snd]; [by rewrite lookup_insert_ne | done].
Qed.

End GetOrAddTheorems.

(** ** More on the block list reader *)

Section BlocksMore.
Import Blocks.
Context {S E BlockHeader Transaction : Type}.
Context {D : Decoders S E BlockHeader Transaction}.

Local Close Scope string_scope.

(** A reader of [n] records rejects only where the read of one of
    them rejects, the records before it having been read. *)
Lemma read_many_Err_inv {A} (read_one : Reader S E A) (n : nat) (s s' : S) (e : E) :
  read_many n read_one s = (Err e, s') →
  ∃ k xs s1, k < n ∧ read_many k read_one s = (Ok xs, s1) ∧ read_one s1 = (Err e, s').
Proof.
  revert s. induction n as [|n IH]; intros s; [discriminate|].
  rewrite read_many_S.
  destruct (read_one s) as [[x|e0] s1] eqn:Hx.
  - destruct (read_many n read_one s1) as [[xs|e1] s2] eqn:Hxs; [discriminate|].
    intros [= -> ->].
    destruct (IH s1 Hxs) as (k & ys & s3 & Hk & Hys & He).
    exists (Datatypes.S k), (x :: ys), s3. split; [lia|]. split; [|done].
    by rewrite read_many_S, Hx, Hys.
  - intros [= -> ->]. exists 0, [], s. split; [lia|]. done.
Qed.

(** X14. [readBlocks] throws nothing of its own but the [RangeError]
    of the array: when it rejects, the count read rejected, or the
    count is no array length, or, the count and some groups having
    been read, the next header read or transaction-list read
    rejected; the error and the state of the stream are those of that
    read. *)
Theorem readBlocks_rejects_where_a_read_rejects (s : S) (e : E) (s' : S) :
  readBlocks s = (Err e, s') →
  readUInt32BE s = (Err e, s')
  ∨ (∃ n, readUInt32BE s = (Ok n, s') ∧ ¬ (0 ≤ n ≤ 4294967295)%Z ∧ e = RangeError n)
  ∨ ∃ n s1 k bs s2,
      readUInt32BE s = (Ok n, s1) ∧ (0 ≤ n ≤ 4294967295)%Z
      ∧ k < Z.to_nat n ∧ read_groups k s1 = (Ok bs, s2)
      ∧ (readBlockHeader s2 = (Err e, s')
         ∨ ∃ h s3, readBlockHeader s2 = (Ok h, s3)
                   ∧ readTransactions s3 = (Err e, s')).
Proof.
  rewrite readBlocks_eq.
  destruct (readUInt32BE s) as [[n|e0] s1] eqn:Hcount; [|intros [= -> ->]; by left].
  case_bool_decide as Hn.
  - destruct (read_groups (Z.to_nat n) s1) as [[bs|e1] s2] eqn:Hgroups; [discriminate|].
    intros [= -> ->]. right; right.
    apply read_many_Err_inv in Hgroups as (k & bs & s3 & Hk & Hbs & Hgroup).
    exists n, s1, k, bs, s3. repeat (split; [done|]).
    rewrite read_group_eq in Hgroup.
    destruct (readBlockHeader s3) as [[h|e2] s4]; [|left; congruence].
    right. exists h, s4. split; [done|].
    destruct (readTransactions s4) as [[txs|e3] s5]; congruence.
  - intros [= <- <-]. right; left. eauto.
Qed.

End BlocksMore.

(** ** The further theorems on concrete inputs *)

Section MoreExamples.
Import Node RegExp Principal Port Enum EnumParse GetOrAdd Blocks Cursor.

Example isValidContractName_ex :
  isValidContractName "pox-2" = true
  ∧ isValidContractName "pox2" = false
  ∧ isValidContractName "2-pox" = false
  ∧ isValidContractName "my.contract" = false
  ∧ isValidContractName "my_contract " = false.
Proof. repeat split; vm_compute; reflexivity. Qed.

(** X2, with a [c32addressDecode] that knows one address. *)
Lemma isValidPrincipal_first_two_fields_ex :
  isValidPrincipal (only_address "ST000000000000000000002AMW42H")
    "ST000000000000000000002AMW42H.pox-2" = Some contractAddress
  ∧ ∀ rest,
      isValidPrincipal (only_address "ST000000000000000000002AMW42H")
        ("ST000000000000000000002AMW42H" +:+ "." +:+ "pox-2" +:+ "." +:+ rest)
      = Some contractAddress.
Proof.
  apply (isValidPrincipal_first_two_fields
           (only_address "ST000000000000000000002AMW42H")
           "ST000000000000000000002AMW42H" "pox-2").
  - vm_compute. repeat constructor; discriminate.
  - vm_compute. reflexivity.
  - vm_compute. reflexivity.
Defined.

Example parsePort_ex :
  parsePort (PortString "8080") = Ok (Some (Finite 8080))
  ∧ parsePort (PortString "+0080") = Ok (Some (Finite 80))
  ∧ parsePort (PortString "0") = Err (PortInvalid (PortString "0"))
  ∧ parsePort (PortString "65536") = Err (PortInvalid (PortString "65536"))
  ∧ parsePort (PortString "-80") = Err (PortInvalid (PortString "-80"))
  ∧ parsePort (PortString "Infinity") = Err (PortInvalid (PortString "Infinity"))
  ∧ parsePort (PortString "80.5") = Err (PortInvalid (PortString "80.5"))
  ∧ parsePort (PortString " 80") = Err (PortInvalid (PortString " 80"))
  ∧ parsePort (PortString "") = Err (PortInvalid (PortString ""))
  ∧ parsePort (PortNumber NaN) = Err (PortInvalid (PortNumber NaN))
  ∧ parsePort (PortNumber (Finite 443)) = Ok (Some (Finite 443))
  ∧ parsePort PortUndefined = Ok None.
Proof. repeat split; vm_compute; reflexivity. Qed.

(** X7, on four digits. *)
Lemma bufferToHexPrefixString_hexToBuffer_ex :
  hexToBuffer (code_units "0x" ++ code_units "Ab0F")%list = Ok (from_hex (code_units "Ab0F"))
  ∧ List.length (from_hex (code_units "Ab0F")) = 2
  ∧ bufferToHexPrefixString (from_hex (code_units "Ab0F"))
    = (code_units "0x" ++ toLowerCase (code_units "Ab0F"))%list.
Proof.
  apply (bufferToHexPrefixString_hexToBuffer 2 (code_units "Ab0F")).
  split; [reflexivity|]. repeat constructor.
Defined.


(** X9, on a hash with an upper-case prefix. *)
Lemma hexToBuffer_normalizeHashString_ex :
  ∃ bytes,
    hexToBuffer
      (code_units "0xabcdef0123456789abcdef0123456789abcdef0123456789abcdef0123456789")
    = Ok bytes
    ∧ List.length bytes = 32
    ∧ bufferToHexPrefixString bytes
      = code_units "0xabcdef0123456789abcdef0123456789abcdef0123456789abcdef0123456789".
Proof.
  apply (hexToBuffer_normalizeHashString
    (InString
       (code_units "0XABCDEF0123456789abcdef0123456789ABCDEF0123456789abcdef0123456789"))).
  vm_compute. reflexivity.
Defined.

(** X10, on the same digits. *)
Lemma hexToBuffer_wants_lower_case_prefix_ex :
  hexToBuffer
    (code_units "0X"
     ++ code_units "ABCDEF0123456789abcdef0123456789ABCDEF0123456789abcdef0123456789")%list
  = Err (MissingPrefix
           (code_units "0X"
            ++ code_units "ABCDEF0123456789abcdef0123456789ABCDEF0123456789abcdef0123456789")%list).
Proof.
  apply (hexToBuffer_wants_lower_case_prefix
    (code_units "ABCDEF0123456789abcdef0123456789ABCDEF0123456789abcdef0123456789")).
  split; [reflexivity|]. repeat constructor.
Defined.

(** X11, on the [Color] enum: 3 is a colour, 4 is not. *)
Lemma parseEnum_spec_Color :
  (parseEnum (Error := string) Color_only Color_ref 3 None no_caches).1 = Ok 3%Z.
Proof.
  apply (parseEnum_spec Color_only Color_ref 3 None no_caches).
  - intros r c. vm_compute. discriminate.
  - exists "Purple". vm_compute. repeat constructor.
Defined.

Example parseEnum_Color_4 :
  (parseEnum Color_only Color_ref 4 (Some (λ n, ("no colour: " +:+ pretty n))) no_caches).1
  = Err (Formatted "no colour: 4")
  ∧ (parseEnum (Error := string) Color_only Color_ref 4 None no_caches).1
    = Err (FailedToParse 4).
Proof.
  unfold parseEnum. rewrite isEnum_miss by reflexivity. split; vm_compute; reflexivity.
Qed.

(** X12, on an enum with two names for 7: the later name is shown. *)
Lemma getEnumDescription_spec_Shade :
  (getEnumDescription (λ _, Shade) 1%positive 7 no_caches).1 = "7 'Grey'"
  ∧ ((Z.abs 7 < 2 ^ 53)%Z → Js.Number_toString 7 = pretty 7%Z)
  ∧ maps_coherent (λ _, Shade) (getEnumDescription (λ _, Shade) 1%positive 7 no_caches).2.
Proof.
  apply (getEnumDescription_spec (λ _, Shade) 1%positive 7 no_caches).
  intros r m. vm_compute. discriminate.
Defined.

Example getEnumDescription_Shade_8 :
  (getEnumDescription (λ _, Shade) 1%positive 8 no_caches).1 = "8".
Proof.
  rewrite getEnumDescription_miss_eq by reflexivity.
  erewrite getEnumDescription_hit by (cbn; apply lookup_insert_eq).
  vm_compute. reflexivity.
Qed.

(** Numbers beyond the safe range print as JavaScript prints them:
    with the fewest digits that tell the double from its neighbours,
    and with an exponent from 10^21 on. *)
Example Number_toString_ex :
  Js.Number_toString (2 ^ 60) = "1152921504606847000"
  ∧ Js.Number_toString (10 ^ 21) = "1e+21"
  ∧ Js.Number_toString (- 2 ^ 70) = "-1.1805916207174113e+21"
  ∧ Js.Number_toString 999999999999999868928 = "999999999999999900000".
Proof. repeat split; vm_compute; reflexivity. Qed.

Example getEnumDescription_Shade_2_60 :
  (getEnumDescription (λ _, Shade) 1%positive (2 ^ 60) no_caches).1
  = "1152921504606847000".
Proof.
  rewrite getEnumDescription_miss_eq by reflexivity.
  erewrite getEnumDescription_hit by (cbn; apply lookup_insert_eq).
  vm_compute. reflexivity.
Qed.

(** X13, with a [create] that writes to the map it is called for,
    under key 9 and under the key itself, before it returns 5: the
    map holds 5 for key 7 afterwards, and the next call returns 5
    without running its [create]. *)
Lemma getOrAdd_memo_writes :
  Map_get (<[7 := Some 5]> (<[7 := Some 0]> (<[9 := Some 1]> (∅ : gmap nat (option nat))))) 7
  = Some 5
  ∧ ∀ (create' : Create (K := nat) (V := nat) (W := nat) string) w,
      getOrAdd (<[7 := Some 5]> (<[7 := Some 0]> (<[9 := Some 1]> ∅))) 7 create' w
      = (Ok (Some 5), <[7 := Some 5]> (<[7 := Some 0]> (<[9 := Some 1]> ∅)), w).
Proof.
  apply (proj1 (getOrAdd_memo (E := string) (∅ : gmap nat (option nat)) 7
                  (λ m w, (Ok (Some 5), <[7 := Some 0]> (<[9 := Some 1]> m), S w)) 0)
           5 (<[7 := Some 5]> (<[7 := Some 0]> (<[9 := Some 1]> ∅))) 1).
  reflexivity.
Defined.

(** X14, on the two-block stream cut inside the header of block B. *)
Lemma readBlocks_rejects_where_a_read_rejects_ex :
  readUInt W4 (open [take 30 two_blocks]) = (Err TruncatedStream, {| position := 29; buffered := [xa2]; incoming := [] |})
  ∨ (∃ n, readUInt W4 (open [take 30 two_blocks]) = (Ok n, {| position := 29; buffered := [xa2]; incoming := [] |})
          ∧ ¬ (0 ≤ n ≤ 4294967295)%Z ∧ TruncatedStream = InvalidArrayLength n)
  ∨ ∃ n s1 k bs s2,
      readUInt W4 (open [take 30 two_blocks]) = (Ok n, s1) ∧ (0 ≤ n ≤ 4294967295)%Z
      ∧ (k < Z.to_nat n)%nat
      ∧ read_groups (D := small_decoders) k s1 = (Ok bs, s2)
      ∧ (Cursor.readBlockHeader 2 W4 s2 = (Err TruncatedStream, {| position := 29; buffered := [xa2]; incoming := [] |})
         ∨ ∃ h s3, Cursor.readBlockHeader 2 W4 s2 = (Ok h, s3)
                   ∧ Cursor.readTransactions (readLengthPrefixed 255 W2) s3
                     = (Err TruncatedStream, {| position := 29; buffered := [xa2]; incoming := [] |})).
Proof.
  apply (readBlocks_rejects_where_a_read_rejects (D := small_decoders)
           (open [take 30 two_blocks]) TruncatedStream ({| position := 29; buffered := [xa2]; incoming := [] |})).
  vm_compute. reflexivity.
Defined.

End MoreExamples.

(** ** Escaping a CSS selector name *)

Section CssFacts.
Import Css.

Local Close Scope string_scope.
Local Open Scope N_scope.

(** What the loop has built is never looked at again. *)
Lemma cssEscape_while_result (len : nat) (first : option N) (index : nat)
    (rest result : list N) :
  cssEscape_while len first index rest result
  = result ++ cssEscape_while len first index rest [].
Proof.
  revert index result. induction rest as [|c rest IH]; intros index result.
  - cbn. by rewrite app_nil_r.
  - cbn [cssEscape_while]. cbv zeta.
    repeat match goal with
    | |- context [if ?b then _ else _] => destruct b
    end;
      rewrite IH, (IH _ ([] ++ _)); by rewrite <- ?app_assoc.
Qed.

Lemma strip_zeros_Forall (P : N → Prop) (digits : list N) :
  Forall P digits → Forall P (strip_zeros digits).
Proof.
  induction digits as [|d digits IH]; [done|].
  intros HP. pose proof HP as [Hd Hds]%Forall_cons. cbn [strip_zeros].
  destruct d; [|done]. destruct digits; [done | auto].
Qed.

Lemma strip_zeros_cons (digits : list N) :
  digits ≠ [] → strip_zeros digits ≠ [].
Proof.
  induction digits as [|d [|d' digits] IH]; [done| |].
  - by destruct d.
  - intros _. cbn [strip_zeros]. destruct d; [by apply IH | done].
Qed.

(** A code unit in hexadecimal: one digit or more, all of them
    printable. *)
Lemma toString16_printable (n : N) :
  Forall (λ c, 0x20 ≤ c ∧ c ≠ 0x7f) (toString16 n) ∧ (1 ≤ List.length (toString16 n))%nat.
Proof.
  unfold toString16. split.
  - apply Forall_fmap.
    apply (Forall_impl (λ d, d < 16)).
    + apply strip_zeros_Forall. repeat constructor; by apply N.mod_lt.
    + intros d Hd. cbn.
      assert (d = 0 ∨ d = 1 ∨ d = 2 ∨ d = 3 ∨ d = 4 ∨ d = 5 ∨ d = 6 ∨ d = 7 ∨ d = 8
              ∨ d = 9 ∨ d = 10 ∨ d = 11 ∨ d = 12 ∨ d = 13 ∨ d = 14 ∨ d = 15)
        as Hcases by lia.
      repeat (destruct Hcases as [-> | Hcases]; [by vm_compute|]).
      subst d. by vm_compute.
  - rewrite length_fmap.
    destruct (strip_zeros _) eqn:Hs; [|cbn; lia].
    by apply strip_zeros_cons in Hs.
Qed.

(** [plain] in terms of the ranges the code tests. *)
Lemma plain_ranges (c : N) :
  plain c
  = ((0x0080 <=? c) || (c =? 0x002d) || (c =? 0x005f)
     || ((0x0030 <=? c) && (c <=? 0x0039))
     || ((0x0041 <=? c) && (c <=? 0x005a))
     || ((0x0061 <=? c) && (c <=? 0x007a))).
Proof.
  unfold plain. destruct (0x80 <=? c) eqn:Hhigh; [done|].
  apply N.leb_gt in Hhigh. cbn [orb].
  destruct c as [|p]; [by vm_compute|].
  do 7 (destruct p as [p|p|]; try (by vm_compute)); lia.
Qed.

(** One turn of the loop: the piece [piece] is added for the code
    unit [c]. It is printable, and it is [c] itself exactly when [c] is
    plain and none of the three rules for the start of a name
    applies. *)
Lemma cssEscape_while_cons (len : nat) (first : option N) (index : nat)
    (c : N) (rest : list N) :
  ∃ piece,
    cssEscape_while len first index (c :: rest) []
    = piece ++ cssEscape_while len first (S index) rest []
    ∧ Forall (λ x, 0x20 ≤ x ∧ x ≠ 0x7f) piece
    ∧ (1 ≤ List.length piece)%nat
    ∧ ((piece = [c] ∧ plain c = true
        ∧ ¬ (index = 0%nat ∧ is_digit c = true)
        ∧ ¬ (index = 1%nat ∧ is_digit c = true ∧ first = Some 0x2d)
        ∧ ¬ (index = 0%nat ∧ len = 1%nat ∧ c = 0x2d))
       ∨ (piece ≠ [c]
          ∧ (plain c = false
             ∨ (index = 0%nat ∧ is_digit c = true)
             ∨ (index = 1%nat ∧ is_digit c = true ∧ first = Some 0x2d)
             ∨ (index = 0%nat ∧ len = 1%nat ∧ c = 0x2d)))).
Proof.
  cbn [cssEscape_while]. cbv zeta.
  assert (Hfirst : ∀ x, first_is first x = true ↔ first = Some x).
  { intros x. unfold first_is. destruct first as [y|]; [|done].
    rewrite N.eqb_eq. naive_solver. }
  pose proof (plain_ranges c) as Hplain. unfold is_digit.
  destruct (c =? 0) eqn:H0.
  { apply N.eqb_eq in H0 as ->. eexists. split; [apply cssEscape_while_result|].
    split; [repeat constructor; lia|]. split; [cbn; lia|].
    right. split; [done|]. left. by vm_compute. }
  apply N.eqb_neq in H0.
  match goal with |- context [if ?b then _ else _] => destruct b eqn:Hesc end.
  { eexists. split; [apply cssEscape_while_result|].
    destruct (toString16_printable c) as [Hhex Hlen].
    split.
    { cbn [app]. constructor; [lia|].
      apply Forall_app. split; [done | repeat constructor; lia]. }
    split; [cbn; lia|].
    right. split.
    { intros Heq. apply (f_equal List.length) in Heq.
      cbn in Heq. rewrite length_app in Heq. cbn in Heq. lia. }
    rewrite Hplain.
    repeat rewrite ?orb_true_iff, ?andb_true_iff, ?N.leb_le, ?N.eqb_eq, ?Nat.eqb_eq,
      ?Hfirst in Hesc.
    destruct Hesc as [[[Hctl | H7f] | Hd0] | Hd1].
    - left. repeat (apply orb_false_iff; split);
        rewrite ?andb_false_iff, ?N.leb_gt, ?N.eqb_neq; lia.
    - left. subst c. by vm_compute.
    - right; left. rewrite andb_true_iff, !N.leb_le. tauto.
    - right; right; left. rewrite andb_true_iff, !N.leb_le. tauto. }
  repeat rewrite ?orb_false_iff, ?andb_false_iff, ?N.leb_gt, ?N.eqb_neq, ?Nat.eqb_neq
    in Hesc.
  destruct Hesc as [[[Hctl H7f] Hd0] Hd1].
  match goal with |- context [if ?b then _ else _] => destruct b eqn:Hdash end.
  { repeat rewrite ?andb_true_iff, ?N.eqb_eq, ?Nat.eqb_eq in Hdash.
    destruct Hdash as [[-> ->] ->].
    eexists. split; [apply cssEscape_while_result|].
    split; [repeat constructor; lia|]. split; [cbn; lia|].
    right. split; [done|]. right; right; right. done. }
  match goal with |- context [if ?b then _ else _] => destruct b eqn:Hkeep end.
  - eexists. split; [apply cssEscape_while_result|].
    rewrite <- Hplain in Hkeep.
    split.
    { repeat constructor; [|lia].
      rewrite Hplain in Hkeep.
      repeat rewrite ?orb_true_iff, ?andb_true_iff, ?N.leb_le, ?N.eqb_eq in Hkeep. lia. }
    split; [cbn; lia|].
    left. split; [done|]. split; [done|].
    repeat rewrite ?andb_false_iff, ?N.eqb_neq, ?Nat.eqb_neq in Hdash.
    split; [|split].
    + rewrite andb_true_iff, !N.leb_le. lia.
    + rewrite andb_true_iff, !N.leb_le.
      intros (-> & Hd & Hf). apply Hfirst in Hf.
      destruct Hd1 as [[[?|?]|?]|?]; [done | lia | lia | congruence].
    + lia.
  - eexists. split; [apply cssEscape_while_result|].
    split; [repeat constructor; lia|]. split; [cbn; lia|].
    right. split; [done|]. left. by rewrite Hplain.
Qed.

Lemma cssEscape_while_length (len : nat) (first : option N) (index : nat) (rest : list N) :
  (List.length rest ≤ List.length (cssEscape_while len first index rest []))%nat.
Proof.
  revert index. induction rest as [|c rest IH]; intros index; [done|].
  destruct (cssEscape_while_cons len first index c rest) as (piece & -> & _ & Hlen & _).
  rewrite length_app. cbn [length]. specialize (IH (S index)). lia.
Qed.

(** From the third code unit on, a string comes out unchanged exactly
    when all of it is plain. *)
Lemma cssEscape_while_plain (len : nat) (first : option N) (index : nat) (rest : list N) :
  (2 ≤ index)%nat →
  cssEscape_while len first index rest [] = rest ↔ Forall (λ c, plain c = true) rest.
Proof.
  revert index. induction rest as [|c rest IH]; intros index Hindex; [done|].
  destruct (cssEscape_while_cons len first index c rest)
    as (piece & -> & _ & Hlen & Hpiece).
  pose proof (cssEscape_while_length len first (S index) rest) as Hrest.
  rewrite Forall_cons, <- (IH (S index)) by lia. split.
  - intros Heq. pose proof (f_equal List.length Heq) as Hlens.
    rewrite length_app in Hlens. cbn [length] in Hlens.
    destruct piece as [|x [|y piece]]; cbn [length] in *; [lia| |lia].
    cbn in Heq. injection Heq as -> Heq.
    destruct Hpiece as [(_ & Hplain & _) | [Hne _]]; [done | congruence].
  - intros [Hplain ->].
    destruct Hpiece as [(-> & _) | (_ & [Hno | [[? _] | [[? _] | [? _]]]])];
      [done | congruence | lia | lia | lia].
Qed.

(** One turn of the loop leaves the string unchanged exactly when it
    keeps the code unit and the rest comes out unchanged. *)
Lemma cssEscape_while_unchanged (len : nat) (first : option N) (index : nat)
    (c : N) (rest : list N) :
  cssEscape_while len first index (c :: rest) [] = c :: rest
  ↔ (plain c = true
     ∧ ¬ (index = 0%nat ∧ is_digit c = true)
     ∧ ¬ (index = 1%nat ∧ is_digit c = true ∧ first = Some 0x2d)
     ∧ ¬ (index = 0%nat ∧ len = 1%nat ∧ c = 0x2d))
    ∧ cssEscape_while len first (S index) rest [] = rest.
Proof.
  destruct (cssEscape_while_cons len first index c rest)
    as (piece & -> & _ & Hlen & Hpiece).
  pose proof (cssEscape_while_length len first (S index) rest) as Hrest.
  split.
  - intros Heq. pose proof (f_equal List.length Heq) as Hlens.
    rewrite length_app in Hlens. cbn [length] in Hlens.
    destruct piece as [|x [|y piece]]; cbn [length] in *; [lia| |lia].
    cbn in Heq. injection Heq as -> Heq.
    destruct Hpiece as [(_ & Hkept) | [Hne _]]; [done | congruence].
  - intros [(Hplain & H0 & H1 & H2) ->].
    destruct Hpiece as [(-> & _) | (_ & [Hno | [? | [? | ?]]])];
      [done | congruence | done | done | done].
Qed.

(** What the loop returns has no control character in it. *)
Lemma cssEscape_while_printable (len : nat) (first : option N) (index : nat)
    (rest : list N) :
  Forall (λ x, 0x20 ≤ x ∧ x ≠ 0x7f) (cssEscape_while len first index rest []).
Proof.
  revert index. induction rest as [|c rest IH]; intros index; [constructor|].
  destruct (cssEscape_while_cons len first index c rest) as (piece & -> & Hok & _).
  apply Forall_app. auto.
Qed.

End CssFacts.

Section CssTheorems.
Import Css.

Local Close Scope string_scope.
Local Open Scope N_scope.

(** X15. Whatever the string, the result of [cssEscape] holds no
    control character (no code unit below U+0020, and no U+007F), and
    it is at least as long as the string. *)
Theorem cssEscape_printable (value : list N) :
  Forall (λ x, 0x20 ≤ x ∧ x ≠ 0x7f) (cssEscape value)
  ∧ (List.length value ≤ List.length (cssEscape value))%nat.
Proof.
  split; [apply cssEscape_while_printable | apply cssEscape_while_length].
Qed.

(** X16. [cssEscape] returns a string unchanged exactly when the
    string is made of letters, digits, hyphens, underscores and code
    units from U+0080 on, does not start with a digit, nor with a
    hyphen followed by a digit, and is not a hyphen alone. *)
Theorem cssEscape_unchanged (value : list N) :
  cssEscape value = value ↔ plain_name value.
Proof.
  unfold cssEscape, plain_name.
  destruct value as [|c0 [|c1 rest]].
  - split; [|done]. intros _. split; [constructor|]. split; [by intros c0 [=] | by intros [=]].
  - rewrite cssEscape_while_unchanged. cbn [head tail length cssEscape_while].
    split.
    + intros [(Hplain & H0 & _ & H2) _].
      split; [by repeat constructor|]. split.
      * intros c [= <-]. destruct (is_digit c0); [by destruct H0 | done].
      * intros [= ->]. by apply H2.
    + intros (Hplain & Hdigit & Hdash). split; [|done].
      apply Forall_cons in Hplain as [Hplain _].
      split; [done|]. split; [|split].
      * intros [_ Hd]. rewrite (Hdigit c0 eq_refl) in Hd. discriminate.
      * intros [[=] _].
      * intros (_ & _ & ->). by apply Hdash.
  - rewrite !cssEscape_while_unchanged, cssEscape_while_plain by lia.
    cbn [head tail length].
    split.
    + intros [(Hplain0 & H0 & _ & _) [(Hplain1 & _ & H1 & _) Hrest]].
      split; [by repeat constructor|]. split.
      * intros c [= <-]. destruct (is_digit c0); [by destruct H0 | done].
      * intros [= ->]. destruct (is_digit c1); [by destruct H1 | done].
    + intros (Hplain & Hdigit & Hdash).
      apply Forall_cons in Hplain as [Hplain0 [Hplain1 Hrest]%Forall_cons].
      split; [|split; [|done]].
      * split; [done|]. split; [|split].
        -- intros [_ Hd]. rewrite (Hdigit c0 eq_refl) in Hd. discriminate.
        -- intros [[=] _].
        -- intros (_ & [=] & _).
      * split; [done|]. split; [|split].
        -- intros [[=] _].
        -- intros (_ & Hd & [= ->]). rewrite (Hdash eq_refl) in Hd. discriminate.
        -- intros [[=] _].
Qed.

End CssTheorems.

(** ** Escaping a CSS selector name *)

Section CssExamples.
Import Node Css.

Example cssEscape_ex :
  cssEscape (code_units "tx-list_2") = code_units "tx-list_2"
  ∧ cssEscape (code_units "2col") = code_units "\32 col"
  ∧ cssEscape (code_units "-9") = code_units "-\39 "
  ∧ cssEscape (code_units "-") = code_units "\-"
  ∧ cssEscape (code_units "a.b c") = code_units "a\.b\ c"
  ∧ cssEscape [0%N; 0x1f%N] = 0xFFFD%N :: code_units "\1f "
  ∧ cssEscape [] = [].
Proof. repeat split; vm_compute; reflexivity. Qed.

End CssExamples.
